(** * secp256k1_blake160_multisig_all: the multisig lock script

    A shallow embedding of [c/secp256k1_blake160_multisig_all.c] and the
    properties of its [main].

    Conventions of the embedding.

    - A C buffer is the list of the bytes that have been written to it,
      starting at its first byte.  Bytes that were never written have no
      determined value, and reading or writing outside the object is
      undefined behaviour; the embedding gives neither a value: a read past
      the written bytes and a write past the capacity are the outcome
      [Undefined].
    - A pointer into a buffer is the offset from the buffer's first byte
      ([ptr] of a [mol_pos]).
    - [uint8_t], [size_t] and [uint64_t] values are natural numbers.  The only
      arithmetic the program does on them is
      [FLAGS_SIZE + PUBKEY_SIZE * pubkeys_cnt], [SIGNATURE_SIZE * threshold]
      and offsets below their sum; with one-byte counts these stay below
      25000, so no operation wraps.
    - Status codes ([int]) are integers.
    - The host system calls, the molecule reader, blake2b and secp256k1 are
      not part of the source file; they are the fields of an environment
      [Env] over which every definition is parameterised. *)

From Stdlib Require Import ZArith Lia.
From Stdlib Require Import Strings.Byte.
From stdpp Require Import base decidable option list.

Set Default Proof Using "Type".

(** ** Bytes and outcomes *)

#[global] Instance byte_eq_dec : EqDecision byte := Byte.byte_eq_dec.

(** What a run of [main] ends in: [return status], or undefined behaviour. *)
Inductive outcome : Type :=
  | Exit (status : Z)
  | Undefined.

#[global] Instance outcome_eq_dec : EqDecision outcome.
Proof. solve_decision. Defined.

(** A step of [main] either goes on with a value or ends the run. *)
Inductive res (A : Type) : Type :=
  | Ok (a : A)
  | Stop (o : outcome).
Arguments Ok {A} a.
Arguments Stop {A} o.

#[global] Instance res_ret : MRet res := fun A a => Ok a.
#[global] Instance res_bind : MBind res := fun A B k c =>
  match c with
  | Ok a => k a
  | Stop o => Stop o
  end.

Definition run (c : res outcome) : outcome :=
  match c with
  | Ok o => o
  | Stop o => o
  end.

(** ** Constants of the source *)

Definition ERROR_ARGUMENTS_LEN : Z := -1.
Definition ERROR_ENCODING : Z := -2.
Definition ERROR_SYSCALL : Z := -3.
Definition ERROR_SECP_RECOVER_PUBKEY : Z := -11.
Definition ERROR_SECP_PARSE_SIGNATURE : Z := -12.
Definition ERROR_SECP_SERIALIZE_PUBKEY : Z := -13.
Definition ERROR_WITNESS_LEN : Z := -21.
Definition ERROR_INVALID_PUBKEYS_CNT : Z := -22.
Definition ERROR_INVALID_THRESHOLD : Z := -23.
Definition ERROR_INVALID_REQUIRE_FIRST_N : Z := -24.
Definition ERROR_MULTSIG_SCRIPT_HASH : Z := -31.
Definition ERROR_VERIFICATION : Z := -32.

Definition BLAKE2B_BLOCK_SIZE : nat := 32.
Definition BLAKE160_SIZE : nat := 20.
Definition PUBKEY_SIZE : nat := 33.
Definition TEMP_SIZE : nat := 1024.
Definition RECID_INDEX : nat := 64.
(* 32 KB *)
Definition MAX_WITNESS_SIZE : nat := 32 * 1024.
Definition MAX_SCRIPT_SIZE : nat := 32 * 1024.
Definition SIGNATURE_SIZE : nat := 65.
Definition FLAGS_SIZE : nat := 4.


(** ** Buffers *)

(** [buf[i]]. *)
Definition index (buf : list byte) (i : nat) : res byte :=
  match buf !! i with
  | Some b => Ok b
  | None => Stop Undefined
  end.

(** The [n] bytes at [buf + off], as [memcpy], [memcmp] and [blake2b_update]
    read them. *)
Definition load (buf : list byte) (off n : nat) : res (list byte) :=
  if decide (off + n ≤ length buf) then Ok (take n (drop off buf))
  else Stop Undefined.

(** [data] written at the start of a buffer of [cap] bytes that holds [buf]. *)
Definition store (cap : nat) (buf data : list byte) : res (list byte) :=
  if decide (length data ≤ cap) then Ok (data ++ drop (length data) buf)
  else Stop Undefined.

(** [memset (buf + off, b, n)]. *)
Definition memset (buf : list byte) (off : nat) (b : byte) (n : nat)
  : res (list byte) :=
  if decide (off + n ≤ length buf)
  then Ok (take off buf ++ replicate n b ++ drop (off + n) buf)
  else Stop Undefined.

(** ** The collaborators *)

(** Return value of a system call, as far as [main] tells the values apart. *)
Inductive syscall_ret : Type :=
  | CKB_SUCCESS
  | CKB_INDEX_OUT_OF_BOUND
  | CKB_OTHER (code : Z).

#[global] Instance syscall_ret_eq_dec : EqDecision syscall_ret.
Proof. solve_decision. Defined.

(** The host's answer to a load: the return value, the length it reports in
    [*len], and the bytes it has for the buffer. *)
Record load_res : Type := {
  ret : syscall_ret;
  len_out : nat;
  data : list byte;
}.

(** A load with [*len = len] on entry.  The host never writes more than [len]
    bytes; a call that fails writes nothing and leaves [*len] alone. *)
Definition syscall (r : load_res) (len : nat) : syscall_ret * nat * list byte :=
  match ret r with
  | CKB_SUCCESS => (CKB_SUCCESS, len_out r, take len (data r))
  | c => (c, len, [])
  end.

Record mol_pos : Type := {
  ptr : nat;
  size : nat;
}.

Record mol_read_res : Type := {
  code : Z;
  pos : mol_pos;
}.

Inductive mol_field : Type :=
  | MOL_Script_args
  | MOL_WitnessArgs_lock.

Record Env (blake2b_state signature pubkey : Type) : Type := {
  (** the current script, for [ckb_load_script] *)
  host_script : load_res;
  (** the witnesses of the input group at index 0, 1, ...; past the last one
      [ckb_load_witness] returns [CKB_INDEX_OUT_OF_BOUND] *)
  host_witnesses : list load_res;
  (** the transaction hash, for [ckb_load_tx_hash] *)
  host_tx_hash : load_res;
  (** [mol_cut (&pos, field)] on the buffer that [pos] points into *)
  mol_cut : list byte → mol_pos → mol_field → mol_read_res;
  mol_cut_bytes : list byte → mol_pos → mol_read_res;
  blake2b_init : nat → blake2b_state;
  blake2b_update : blake2b_state → list byte → blake2b_state;
  blake2b_final : blake2b_state → nat → list byte;
  (** return value of [ckb_secp256k1_custom_verify_only_initialize] *)
  secp256k1_initialize : Z;
  (** [secp256k1_ecdsa_recoverable_signature_parse_compact]: [None] is the
      return value 0 *)
  parse_compact : list byte → byte → option signature;
  (** [secp256k1_ecdsa_recover]: [Some] is the return value 1 *)
  recover : signature → list byte → option pubkey;
  (** [secp256k1_ec_pubkey_serialize] with [SECP256K1_EC_COMPRESSED]: [Some]
      is the return value 1 *)
  serialize : pubkey → option (list byte);
}.
Arguments host_script {_ _ _} _.
Arguments host_witnesses {_ _ _} _.
Arguments host_tx_hash {_ _ _} _.
Arguments mol_cut {_ _ _} _ _ _ _.
Arguments mol_cut_bytes {_ _ _} _ _ _.
Arguments blake2b_init {_ _ _} _ _.
Arguments blake2b_update {_ _ _} _ _ _.
Arguments blake2b_final {_ _ _} _ _ _.
Arguments secp256k1_initialize {_ _ _} _.
Arguments parse_compact {_ _ _} _ _ _.
Arguments recover {_ _ _} _ _ _.
Arguments serialize {_ _ _} _ _.

(** The flags of the multisig script, after [threshold] is normalised. *)
Record policy : Type := {
  pubkeys_cnt : nat;
  threshold : nat;
  require_first_n : nat;
}.

Definition multisig_script_len (p : policy) : nat :=
  FLAGS_SIZE + PUBKEY_SIZE * pubkeys_cnt p.

Definition signatures_len (p : policy) : nat :=
  SIGNATURE_SIZE * threshold p.

(** The three buffers of [main] that are written after they are filled. *)
Record buffers : Type := {
  witness : list byte;
  lock_bytes : list byte;
  temp : list byte;
}.

(** ** [main], block by block *)

(** Get flags (lines 117-138). *)
Definition get_flags (lock_bytes : list byte) : res policy :=
  b3 ← index lock_bytes 3;
  b2 ← index lock_bytes 2;
  b1 ← index lock_bytes 1;
  let pubkeys_cnt := Byte.to_nat b3 in
  let threshold := Byte.to_nat b2 in
  let require_first_n := Byte.to_nat b1 in
  if decide (pubkeys_cnt = 0) then Stop (Exit ERROR_INVALID_PUBKEYS_CNT)
  else if decide (pubkeys_cnt < threshold) then Stop (Exit ERROR_INVALID_THRESHOLD)
  else
    let threshold := if decide (threshold = 0) then pubkeys_cnt else threshold in
    if decide (threshold < require_first_n)
    then Stop (Exit ERROR_INVALID_REQUIRE_FIRST_N)
    else
      let p := {| pubkeys_cnt := pubkeys_cnt;
                  threshold := threshold;
                  require_first_n := require_first_n |} in
      let required_lock_len := multisig_script_len p + signatures_len p in
      if decide (length lock_bytes ≠ required_lock_len)
      then Stop (Exit ERROR_WITNESS_LEN)
      else Ok p.

Section Main.
Context {blake2b_state signature pubkey : Type}.
Variable e : Env blake2b_state signature pubkey.

(** [ckb_load_witness (buf, &len, 0, index, CKB_SOURCE_GROUP_INPUT)] for the
    first witness of [ws], the witnesses from [index] on. *)
Definition ckb_load_witness (ws : list load_res) (len : nat)
  : syscall_ret * nat * list byte :=
  match ws with
  | [] => (CKB_INDEX_OUT_OF_BOUND, len, [])
  | r :: _ => syscall r len
  end.

(** Load args (lines 75-95): the script buffer and [args_bytes_res.pos]. *)
Definition load_args : res (list byte * mol_pos) :=
  let '(ret, len, stored) := syscall (host_script e) MAX_SCRIPT_SIZE in
  script ← store MAX_SCRIPT_SIZE [] stored;
  if decide (ret ≠ CKB_SUCCESS) then Stop (Exit ERROR_SYSCALL)
  else
    let script_pos := {| ptr := 0; size := len |} in
    let args_res := mol_cut e script script_pos MOL_Script_args in
    if decide (code args_res ≠ 0%Z) then Stop (Exit ERROR_ENCODING)
    else
      let args_bytes_res := mol_cut_bytes e script (pos args_res) in
      if decide (code args_bytes_res ≠ 0%Z) then Stop (Exit ERROR_ENCODING)
      else if decide (size (pos args_bytes_res) ≠ BLAKE160_SIZE)
      then Stop (Exit ERROR_ARGUMENTS_LEN)
      else Ok (script, pos args_bytes_res).

(** Extract lock from WitnessArgs (lines 30-47).  A [Stop] is the return
    value [ERROR_ENCODING]; [Ok] is the return value 0 with
    [*lock_bytes_res]. *)
Definition extract_witness_lock (witness : list byte) (len : nat)
  : res mol_read_res :=
  let witness_pos := {| ptr := 0; size := len |} in
  let lock_res := mol_cut e witness witness_pos MOL_WitnessArgs_lock in
  if decide (code lock_res ≠ 0%Z) then Stop (Exit ERROR_ENCODING)
  else
    let lock_bytes_res := mol_cut_bytes e witness (pos lock_res) in
    if decide (code lock_bytes_res ≠ 0%Z) then Stop (Exit ERROR_ENCODING)
    else Ok lock_bytes_res.

(** Load witness of first input (lines 97-111): the witness buffer,
    [witness_len] and [lock_bytes_res.pos]. *)
Definition load_first_witness : res (list byte * nat * mol_pos) :=
  let '(ret, witness_len, stored) :=
    ckb_load_witness (host_witnesses e) MAX_WITNESS_SIZE in
  witness ← store MAX_WITNESS_SIZE [] stored;
  if decide (ret ≠ CKB_SUCCESS) then Stop (Exit ERROR_SYSCALL)
  else
    lock_bytes_res ← extract_witness_lock witness witness_len;
    if decide (size (pos lock_bytes_res) < FLAGS_SIZE)
    then Stop (Exit ERROR_WITNESS_LEN)
    else Ok (witness, witness_len, pos lock_bytes_res).

(** The digest of the multisig script of [lock_bytes], as lines 141-144
    compute it. *)
Definition multisig_script_hash (lock_bytes : list byte) (p : policy) : list byte :=
  blake2b_final e
    (blake2b_update e (blake2b_init e BLAKE2B_BLOCK_SIZE)
       (take (multisig_script_len p) lock_bytes))
    BLAKE2B_BLOCK_SIZE.

(** Check multisig script hash (lines 140-148); the result is [temp]. *)
Definition check_multisig_script_hash (script : list byte) (args_pos : mol_pos)
    (lock_bytes : list byte) (p : policy) (temp : list byte)
  : res (list byte) :=
  let blake2b_ctx := blake2b_init e BLAKE2B_BLOCK_SIZE in
  multisig_script ← load lock_bytes 0 (multisig_script_len p);
  let blake2b_ctx := blake2b_update e blake2b_ctx multisig_script in
  temp ← store TEMP_SIZE temp
           (take BLAKE2B_BLOCK_SIZE (blake2b_final e blake2b_ctx BLAKE2B_BLOCK_SIZE));
  args ← load script (ptr args_pos) BLAKE160_SIZE;
  hash ← load temp 0 BLAKE160_SIZE;
  if decide (args ≠ hash) then Stop (Exit ERROR_MULTSIG_SCRIPT_HASH)
  else Ok temp.

(** Load tx hash (lines 150-156). *)
Definition load_tx_hash : res (list byte) :=
  let '(ret, len, stored) := syscall (host_tx_hash e) BLAKE2B_BLOCK_SIZE in
  tx_hash ← store BLAKE2B_BLOCK_SIZE [] stored;
  if decide (ret ≠ CKB_SUCCESS) then Stop (Exit ERROR_SYSCALL)
  else Ok tx_hash.

(** Digest other witnesses (lines 168-181), [ws] being the host's witnesses
    from index [i] on. *)
Fixpoint digest_other_witnesses (ws : list load_res)
    (blake2b_ctx : blake2b_state) (temp : list byte)
  : res (blake2b_state * list byte) :=
  match ws with
  | [] =>
      (* ret == CKB_INDEX_OUT_OF_BOUND, nothing written *)
      Ok (blake2b_ctx, temp)
  | r :: ws =>
      let '(ret, len, stored) := syscall r MAX_WITNESS_SIZE in
      temp ← store TEMP_SIZE temp stored;
      if decide (ret = CKB_INDEX_OUT_OF_BOUND) then Ok (blake2b_ctx, temp)
      else if decide (ret ≠ CKB_SUCCESS) then Stop (Exit ERROR_SYSCALL)
      else
        bytes ← load temp 0 len;
        digest_other_witnesses ws (blake2b_update e blake2b_ctx bytes) temp
  end.

(** Prepare sign message (lines 158-182): [message] and the buffers. *)
Definition prepare_sign_message (tx_hash : list byte) (witness_len : nat)
    (lock_pos : mol_pos) (p : policy) (b : buffers)
  : res (list byte * buffers) :=
  let blake2b_ctx := blake2b_init e BLAKE2B_BLOCK_SIZE in
  hash ← load tx_hash 0 BLAKE2B_BLOCK_SIZE;
  let blake2b_ctx := blake2b_update e blake2b_ctx hash in
  (* Set signature to zero, then digest the first witness *)
  witness ← memset (witness b) (ptr lock_pos + multisig_script_len p) x00
              (signatures_len p);
  bytes ← load witness 0 witness_len;
  let blake2b_ctx := blake2b_update e blake2b_ctx bytes in
  '(blake2b_ctx, temp) ←
    digest_other_witnesses (drop 1 (host_witnesses e)) blake2b_ctx (temp b);
  let message := blake2b_final e blake2b_ctx BLAKE2B_BLOCK_SIZE in
  Ok (message, {| witness := witness; lock_bytes := lock_bytes b; temp := temp |}).

(** The argument bytes of [parse_compact] for signature [i]: the 64 bytes
    at [&lock_bytes[signature_offset]] and
    [lock_bytes[signature_offset + RECID_INDEX]] (lines 198-201). *)
Definition load_signature (lock_bytes : list byte) (p : policy) (i : nat)
  : res (list byte * byte) :=
  let signature_offset := multisig_script_len p + i * SIGNATURE_SIZE in
  input64 ← load lock_bytes signature_offset RECID_INDEX;
  recid ← index lock_bytes (signature_offset + RECID_INDEX);
  Ok (input64, recid).

(** Check pubkeys (lines 217-230), from index [i] with [n] indices to go:
    [matched] and [used_signatures]. *)
Fixpoint check_pubkeys (lock_bytes temp used_signatures : list byte)
    (i n : nat) : res (bool * list byte) :=
  match n with
  | 0 => Ok (false, used_signatures)
  | S n =>
      u ← index used_signatures i;
      if decide (u = x01)
      then check_pubkeys lock_bytes temp used_signatures (S i) n
      else
        pk ← load lock_bytes (FLAGS_SIZE + i * PUBKEY_SIZE) PUBKEY_SIZE;
        candidate ← load temp 0 PUBKEY_SIZE;
        if decide (pk ≠ candidate)
        then check_pubkeys lock_bytes temp used_signatures (S i) n
        else
          (* the write is at the index just read *)
          Ok (true, <[i := x01]> used_signatures)
  end.

(** Parse the signature, recover the public key and serialise it (lines
    199-215): the bytes that [secp256k1_ec_pubkey_serialize] has for [temp],
    with [pubkey_size = PUBKEY_SIZE] on entry. *)
Definition recover_from (input64 : list byte) (recid : byte)
    (message : list byte) : res (list byte) :=
  match parse_compact e input64 recid with
  | None => Stop (Exit ERROR_SECP_PARSE_SIGNATURE)
  | Some signature =>
      (* Recover pubkey *)
      match recover e signature message with
      | None => Stop (Exit ERROR_SECP_RECOVER_PUBKEY)
      | Some pubkey =>
          match serialize e pubkey with
          | None => Stop (Exit ERROR_SECP_SERIALIZE_PUBKEY)
          | Some output => Ok (take PUBKEY_SIZE output)
          end
      end
  end.

(** Lines 196-215 for signature [i]. *)
Definition recover_pubkey (lock_bytes : list byte) (p : policy)
    (message : list byte) (i : nat) : res (list byte) :=
  (* Load signature *)
  '(input64, recid) ← load_signature lock_bytes p i;
  recover_from input64 recid message.

(** The loop over the signatures (lines 195-235), from signature [i] with
    [n] signatures to go: [used_signatures] and [temp]. *)
Fixpoint verify_signatures (lock_bytes : list byte) (p : policy)
    (message temp used_signatures : list byte) (i n : nat)
  : res (list byte * list byte) :=
  match n with
  | 0 => Ok (used_signatures, temp)
  | S n =>
      output ← recover_pubkey lock_bytes p message i;
      temp ← store TEMP_SIZE temp output;
      (* Check pubkeys *)
      '(matched, used_signatures) ←
        check_pubkeys lock_bytes temp used_signatures 0 (pubkeys_cnt p);
      if matched : bool
      then verify_signatures lock_bytes p message temp used_signatures (S i) n
      else Stop (Exit ERROR_VERIFICATION)
  end.

(** The loop over the first [require_first_n] public keys (lines 237-241). *)
Fixpoint check_require_first_n (used_signatures : list byte) (i n : nat)
  : res unit :=
  match n with
  | 0 => Ok ()
  | S n =>
      u ← index used_signatures i;
      if decide (u ≠ x01) then Stop (Exit ERROR_VERIFICATION)
      else check_require_first_n used_signatures (S i) n
  end.

(** Verify threshold signatures (lines 184-243). *)
Definition verify_threshold_signatures (lock_bytes : list byte) (p : policy)
    (message temp : list byte) : outcome :=
  let used_signatures := replicate (threshold p) x00 in
  if decide (secp256k1_initialize e ≠ 0%Z) then Exit (secp256k1_initialize e)
  else
    run ('(used_signatures, _) ←
           verify_signatures lock_bytes p message temp used_signatures 0
             (threshold p);
         _ ← check_require_first_n used_signatures 0 (require_first_n p);
         Ok (Exit 0)).

(** What [main] holds when it reaches "Verify threshold signatures". *)
Record prepared : Type := {
  pr_policy : policy;
  pr_message : list byte;
  pr_buffers : buffers;
}.

(** Lines 70-182. *)
Definition prepare : res prepared :=
  '(script, args_pos) ← load_args;
  '(witness, witness_len, lock_pos) ← load_first_witness;
  (* memcpy(lock_bytes, lock_bytes_res.pos.ptr, lock_bytes_len) *)
  lock_bytes ← load witness (ptr lock_pos) (size lock_pos);
  p ← get_flags lock_bytes;
  temp ← check_multisig_script_hash script args_pos lock_bytes p [];
  tx_hash ← load_tx_hash;
  '(message, b) ←
    prepare_sign_message tx_hash witness_len lock_pos p
      {| witness := witness; lock_bytes := lock_bytes; temp := temp |};
  Ok {| pr_policy := p; pr_message := message; pr_buffers := b |}.

Definition main : outcome :=
  match prepare with
  | Stop o => o
  | Ok s =>
      verify_threshold_signatures (lock_bytes (pr_buffers s)) (pr_policy s)
        (pr_message s) (temp (pr_buffers s))
  end.
End Main.

(** ** Views of the lock bytes *)

(** Public key [j] of the multisig script, [&lock_bytes[FLAGS_SIZE + j * PUBKEY_SIZE]]. *)
Definition pubkey_at (lock_bytes : list byte) (j : nat) : list byte :=
  take PUBKEY_SIZE (drop (FLAGS_SIZE + j * PUBKEY_SIZE) lock_bytes).

(** The public keys of a script with [n] of them, in order. *)
Definition pubkeys (lock_bytes : list byte) (n : nat) : list (list byte) :=
  pubkey_at lock_bytes <$> seq 0 n.


(** At how many indices of the script the key [k] is listed. *)
Definition key_count (k : list byte) (keys : list (list byte)) : nat :=
  length (filter (λ k', k' = k) keys).

(** The lock field of the first witness as the host returned it. *)
Definition extracted_lock (witness : list byte) (lock_pos : mol_pos) : list byte :=
  take (size lock_pos) (drop (ptr lock_pos) witness).

(** The witness buffer once the signature area is set to zero. *)
Definition zeroed (witness : list byte) (lock_pos : mol_pos) (p : policy)
  : list byte :=
  take (ptr lock_pos + multisig_script_len p) witness
  ++ replicate (signatures_len p) x00
  ++ drop (ptr lock_pos + multisig_script_len p + signatures_len p) witness.

(** The match state that [used_signatures] stands for. *)
Definition match_state_of (used_signatures : list byte) : list bool :=
  (λ u, bool_decide (u = x01)) <$> used_signatures.

(** How many entries of a match state are true. *)
Definition matched_count (match_state : list bool) : nat :=
  length (filter (λ m, m = true) match_state).

(** Only entries of the key [K] are marked in a match state. *)
Definition marks_key (K : list byte) (keys : list (list byte)) (ms : list bool)
  : Prop :=
  Forall2 (λ k (m : bool), m = true → k = K) keys ms.

(** ** The Threshold Matcher as the specification words it

    These definitions follow section 4.4 of the specification, steps 4 and 5,
    with the match state "sized to [pubkey_count] entries"; they are what the
    program is compared with. *)

(** Step 4: the first index [j] whose match state is false and whose public
    key equals the candidate is marked; [None] when there is none. *)
Fixpoint spec_select (keys : list (list byte)) (match_state : list bool)
    (candidate : list byte) : option (list bool) :=
  match keys, match_state with
  | k :: keys, m :: match_state =>
      if negb m && bool_decide (k = candidate) then Some (true :: match_state)
      else cons m <$> spec_select keys match_state candidate
  | _, _ => None
  end.

(** Step 4 for every candidate, in list order. *)
Fixpoint spec_match (keys : list (list byte)) (match_state : list bool)
    (candidates : list (list byte)) : option (list bool) :=
  match candidates with
  | [] => Some match_state
  | c :: candidates =>
      match_state ← spec_select keys match_state c;
      spec_match keys match_state candidates
  end.

(** Steps 4 and 5: accept (status 0) iff every candidate is matched and
    [MatchState[0..require_first_n)] are all true. *)
Definition spec_threshold_matcher (keys candidates : list (list byte))
    (require_first_n : nat) : outcome :=
  match spec_match keys (replicate (length keys) false) candidates with
  | None => Exit ERROR_VERIFICATION
  | Some match_state =>
      if forallb id (take require_first_n match_state) then Exit 0
      else Exit ERROR_VERIFICATION
  end.

(** ** Environments to run the program in

    A host and collaborators small enough to compute with.  The framing puts
    the length of a field in the byte before it; the hash of a message is its
    first bytes, padded with zeros; a signature is the signer's public key
    followed by the message. *)
Module Sample.
Definition cut (buf : list byte) (p : mol_pos) (_ : mol_field) : mol_read_res :=
  match buf !! ptr p with
  | Some b =>
      if decide (1 + Byte.to_nat b ≤ size p)
      then {| code := 0; pos := {| ptr := ptr p + 1; size := Byte.to_nat b |} |}
      else {| code := 1; pos := p |}
  | None => {| code := 1; pos := p |}
  end.

Definition cut_bytes (_ : list byte) (p : mol_pos) : mol_read_res :=
  {| code := 0; pos := p |}.

Definition final (c : list byte) (n : nat) : list byte :=
  take n (c ++ replicate n x00).

Definition parse (input64 : list byte) (recid : byte) : option (list byte) :=
  Some (input64 ++ [recid]).

Definition recov (sig message : list byte) : option (list byte) :=
  if decide (drop PUBKEY_SIZE sig = message) then Some (take PUBKEY_SIZE sig)
  else None.

Definition blob (bytes : list byte) : load_res :=
  {| ret := CKB_SUCCESS; len_out := length bytes; data := bytes |}.

Definition failure : load_res :=
  {| ret := CKB_OTHER 2; len_out := 0; data := [] |}.

Definition env_of (script : load_res) (witnesses : list load_res)
    (tx_hash : load_res) : Env (list byte) (list byte) (list byte) :=
  {| host_script := script;
     host_witnesses := witnesses;
     host_tx_hash := tx_hash;
     mol_cut := cut;
     mol_cut_bytes := cut_bytes;
     blake2b_init := λ _, [];
     blake2b_update := λ c bytes, c ++ bytes;
     blake2b_final := final;
     secp256k1_initialize := 0;
     parse_compact := parse;
     recover := recov;
     serialize := Some |}.

Definition env (script : list byte) (witnesses : list (list byte))
    (tx_hash : list byte) : Env (list byte) (list byte) (list byte) :=
  env_of (blob script) (blob <$> witnesses) (blob tx_hash).

Definition key (b : byte) : list byte := replicate PUBKEY_SIZE b.
Definition key_a : list byte := key x0a.
Definition key_b : list byte := key x0b.
Definition key_c : list byte := key x0c.

Definition tx_hash : list byte := replicate BLAKE2B_BLOCK_SIZE x77.

(** The signature of the holder of [k] on the digest, which here is the
    transaction hash. *)
Definition sign (k : list byte) : list byte := k ++ tx_hash.

Definition lock (r m n : byte) (keys signatures : list (list byte)) : list byte :=
  [x00; r; m; n] ++ concat keys ++ concat signatures.

Definition framed (field : list byte) : list byte :=
  default x00 (Byte.of_nat (length field)) :: field.

(** The script whose argument is the blake160 of the multisig script of [l]. *)
Definition script_of (l : list byte) : list byte :=
  framed (take BLAKE160_SIZE l).

(** A call with the lock [l] in the first witness, [tail] after the
    framed arguments of the script and [others] as further witnesses. *)
Definition call (l tail : list byte) (others : list (list byte))
  : Env (list byte) (list byte) (list byte) :=
  env (script_of l ++ tail) (framed l :: others) tx_hash.

(** Two of two, first key required, signed by B then A. *)
Definition lock_2_of_2 : list byte :=
  lock x01 x02 x02 [key_a; key_b] [sign key_b; sign key_a].
Definition two_of_two := call lock_2_of_2 [] [[x01; x02; x03]].

(** The same keys and the signature of A twice. *)
Definition lock_repeated : list byte :=
  lock x00 x02 x02 [key_a; key_b] [sign key_a; sign key_a].
Definition repeated := call lock_repeated [] [].

(** Key A listed twice, and the signature of A twice. *)
Definition lock_listed_twice : list byte :=
  lock x00 x02 x02 [key_a; key_a] [sign key_a; sign key_a].
Definition listed_twice := call lock_listed_twice [] [].

(** One of two, signed by B, the second key. *)
Definition lock_1_of_2 : list byte :=
  lock x00 x01 x02 [key_a; key_b] [sign key_b].
Definition one_of_two := call lock_1_of_2 [] [].

(** The scenario of section 8 of the specification: two of three, first key
    required, keys A, B, C, signed by C then A. *)
Definition lock_2_of_3 : list byte :=
  lock x01 x02 x03 [key_a; key_b; key_c] [sign key_c; sign key_a].
Definition two_of_three := call lock_2_of_3 [] [].

(** [two_of_two] with a second witness of [TEMP_SIZE + 1] bytes. *)
Definition long_witness := call lock_2_of_2 [] [replicate (TEMP_SIZE + 1) x05].

(** [two_of_two] with a script blob of more than [MAX_SCRIPT_SIZE] bytes. *)
Definition long_script := call lock_2_of_2 (replicate MAX_SCRIPT_SIZE x00) [].

(** [two_of_two] with a first witness of more than [MAX_WITNESS_SIZE] bytes. *)
Definition long_first_witness :=
  env (script_of lock_2_of_2)
    [framed lock_2_of_2 ++ replicate MAX_WITNESS_SIZE x00] tx_hash.

(** The state in which [main] reaches the signatures on [two_of_two]. *)
Definition first_witness : list byte := framed lock_2_of_2.
Definition lock_pos : mol_pos := {| ptr := 1; size := length lock_2_of_2 |}.
Definition args_pos : mol_pos := {| ptr := 1; size := BLAKE160_SIZE |}.
Definition flags_2_of_2 : policy :=
  {| pubkeys_cnt := 2; threshold := 2; require_first_n := 1 |}.
Definition prepared_2_of_2 : prepared :=
  {| pr_policy := flags_2_of_2;
     pr_message := tx_hash;
     pr_buffers :=
       {| witness :=
            take (1 + multisig_script_len flags_2_of_2) first_witness
            ++ replicate (signatures_len flags_2_of_2) x00;
          lock_bytes := lock_2_of_2;
          temp := [x01; x02; x03] ++ drop 3 (take BLAKE2B_BLOCK_SIZE lock_2_of_2) |} |}.

(** The state in which [main] reaches the signatures on a call made of the
    lock [l] alone. *)
Definition prepared_for (l : list byte) (p : policy) : prepared :=
  {| pr_policy := p;
     pr_message := tx_hash;
     pr_buffers :=
       {| witness :=
            take (1 + multisig_script_len p) (framed l)
            ++ replicate (signatures_len p) x00;
          lock_bytes := l;
          temp := take BLAKE2B_BLOCK_SIZE l |} |}.
Definition flags_2_of_2_free : policy :=
  {| pubkeys_cnt := 2; threshold := 2; require_first_n := 0 |}.
Definition flags_1_of_2 : policy :=
  {| pubkeys_cnt := 2; threshold := 1; require_first_n := 0 |}.
Definition flags_2_of_3 : policy :=
  {| pubkeys_cnt := 3; threshold := 2; require_first_n := 1 |}.

(** A call whose script cannot be loaded, and a call without a witness. *)
Definition no_script :=
  env_of failure [blob (framed lock_2_of_2)] (blob tx_hash).
Definition no_witness := env (script_of lock_2_of_2) [] tx_hash.

(** [two_of_two] with a second witness that the host fails to load. *)
Definition failing_second :=
  env_of (blob (script_of lock_2_of_2)) [blob (framed lock_2_of_2); failure]
    (blob tx_hash).

(** The buffers of [two_of_two] before the message is prepared. *)
Definition buffers_2_of_2 : buffers :=
  {| witness := first_witness;
     lock_bytes := lock_2_of_2;
     temp := take BLAKE2B_BLOCK_SIZE lock_2_of_2 |}.

(** [lock_2_of_2] with other bytes in the signature area. *)
Definition lock_2_of_2_unsigned : list byte :=
  lock x01 x02 x02 [key_a; key_b] [replicate SIGNATURE_SIZE x33; sign key_a].
Definition buffers_2_of_2_unsigned : buffers :=
  {| witness := framed lock_2_of_2_unsigned;
     lock_bytes := lock_2_of_2_unsigned;
     temp := take BLAKE2B_BLOCK_SIZE lock_2_of_2 |}.
(** [two_of_two] with a serialisation that always writes [PUBKEY_SIZE]
    bytes. *)
Definition padded (k : list byte) : option (list byte) :=
  Some (take PUBKEY_SIZE (k ++ replicate PUBKEY_SIZE x00)).
Definition two_of_two_padded : Env (list byte) (list byte) (list byte) :=
  {| host_script := host_script two_of_two;
     host_witnesses := host_witnesses two_of_two;
     host_tx_hash := host_tx_hash two_of_two;
     mol_cut := cut;
     mol_cut_bytes := cut_bytes;
     blake2b_init := λ _, [];
     blake2b_update := λ c bytes, c ++ bytes;
     blake2b_final := final;
     secp256k1_initialize := 0;
     parse_compact := parse;
     recover := recov;
     serialize := padded |}.

End Sample.

(** The signatures from [i] on recover to the keys [candidates]. *)
Definition recovers_to {blake2b_state signature pubkey : Type}
    (e : Env blake2b_state signature pubkey) (lock_bytes : list byte)
    (p : policy) (message : list byte) (i : nat)
    (candidates : list (list byte)) : Prop :=
  ∀ k c, candidates !! k = Some c →
         length c = PUBKEY_SIZE ∧
         recover_pubkey e lock_bytes p message (i + k) = Ok c.


(** A witness that the host loads in full and that fits [temp]. *)
Definition fits_temp (r : load_res) : Prop :=
  ret r = CKB_SUCCESS ∧ len_out r = length (data r) ∧ length (data r) ≤ TEMP_SIZE.

(** The return value of the load of the first witness. *)
Definition first_witness_ret {blake2b_state signature pubkey : Type}
    (e : Env blake2b_state signature pubkey) : syscall_ret :=
  (ckb_load_witness (host_witnesses e) MAX_WITNESS_SIZE).1.1.

(** ** What is asked of the collaborators *)

(** How many entries of [used_signatures] are set. *)
Definition used_count (used_signatures : list byte) : nat :=
  length (filter (λ u, u = x01) used_signatures).

(** A step that does not leave defined behaviour. *)
Definition defined {A : Type} (c : res A) : Prop := c ≠ Stop Undefined.

(** The statuses that lines 70-182 return, and those that lines 184-243
    return besides the value of the secp256k1 initialisation. *)
Definition prepare_statuses : list Z :=
  [ERROR_ARGUMENTS_LEN; ERROR_ENCODING; ERROR_SYSCALL; ERROR_WITNESS_LEN;
   ERROR_INVALID_PUBKEYS_CNT; ERROR_INVALID_THRESHOLD;
   ERROR_INVALID_REQUIRE_FIRST_N; ERROR_MULTSIG_SCRIPT_HASH].
Definition signature_statuses : list Z :=
  [ERROR_SECP_PARSE_SIGNATURE; ERROR_SECP_RECOVER_PUBKEY;
   ERROR_SECP_SERIALIZE_PUBKEY; ERROR_VERIFICATION].
Definition verify_statuses : list Z := 0%Z :: signature_statuses.

(** A step that, when it ends the run with a status, ends it with one of
    [statuses]. *)
Definition stops_in {A : Type} (statuses : list Z) (c : res A) : Prop :=
  ∀ z, c = Stop (Exit z) → z ∈ statuses.

(** A load that succeeds reports the length of what it has, and that fits a
    buffer of [cap] bytes. *)
Definition honest (cap : nat) (r : load_res) : Prop :=
  ret r = CKB_SUCCESS → len_out r = length (data r) ∧ length (data r) ≤ cap.

(** A position that lies inside another. *)
Definition inside (q p : mol_pos) : Prop :=
  ptr p ≤ ptr q ∧ ptr q + size q ≤ ptr p + size p.

Section Collaborators.
Context {blake2b_state signature pubkey : Type}.
Variable e : Env blake2b_state signature pubkey.

(** The reader returns positions inside the one it is given. *)
Definition reader_in_bounds : Prop :=
  (∀ buf p f, code (mol_cut e buf p f) = 0%Z → inside (pos (mol_cut e buf p f)) p) ∧
  (∀ buf p, code (mol_cut_bytes e buf p) = 0%Z → inside (pos (mol_cut_bytes e buf p)) p).

(** A serialised public key has [PUBKEY_SIZE] bytes. *)
Definition serialize_compressed : Prop :=
  ∀ k output, serialize e k = Some output → length output = PUBKEY_SIZE.

(** The host reports honest lengths, every further witness fits [temp], the
    transaction hash has its 32 bytes, the reader stays inside the blob, the
    hash has the length asked for and a public key serialises to 33 bytes. *)
Definition well_behaved : Prop :=
  honest MAX_SCRIPT_SIZE (host_script e) ∧
  Forall (honest MAX_WITNESS_SIZE) (take 1 (host_witnesses e)) ∧
  Forall (honest TEMP_SIZE) (drop 1 (host_witnesses e)) ∧
  (ret (host_tx_hash e) = CKB_SUCCESS →
   BLAKE2B_BLOCK_SIZE ≤ length (data (host_tx_hash e))) ∧
  reader_in_bounds ∧
  (∀ c n, length (blake2b_final e c n) = n) ∧
  serialize_compressed.
End Collaborators.

(** ** Buffer lemmas *)

Lemma bind_Ok {A B} (a : A) (k : A → res B) : (Ok a ≫= k) = k a.
Proof. reflexivity. Qed.

Lemma bind_inv {A B} (c : res A) (k : A → res B) (b : B) :
  (c ≫= k) = Ok b → ∃ a, c = Ok a ∧ k a = Ok b.
Proof. destruct c as [a|o]; [eauto | discriminate]. Qed.

(** [H : (c ≫= k) = Ok b] becomes [Hx : c = Ok x] and [H : k x = Ok b]. *)
Tactic Notation "unbind" hyp(H) "as" simple_intropattern(x) ident(Hx) :=
  apply bind_inv in H as (x & Hx & H).
Tactic Notation "unbind" hyp(H) "as" simple_intropattern(x) :=
  apply bind_inv in H as (x & _ & H).

Lemma index_lt (buf : list byte) (i : nat) :
  i < length buf → index buf i = Ok (nth i buf x00).
Proof.
  intros Hi. unfold index. rewrite nth_lookup.
  destruct (lookup_lt_is_Some_2 buf i Hi) as [b ->]. reflexivity.
Qed.

Lemma load_le (buf : list byte) (off n : nat) :
  off + n ≤ length buf → load buf off n = Ok (take n (drop off buf)).
Proof. intros H. unfold load. rewrite decide_True; done. Qed.

Lemma load_inv (buf : list byte) (off n : nat) (bytes : list byte) :
  load buf off n = Ok bytes →
  off + n ≤ length buf ∧ bytes = take n (drop off buf).
Proof. unfold load. case_decide; [|discriminate]. intros [= <-]. done. Qed.

Lemma store_le (cap : nat) (buf bytes : list byte) :
  length bytes ≤ cap → store cap buf bytes = Ok (bytes ++ drop (length bytes) buf).
Proof. intros H. unfold store. rewrite decide_True; done. Qed.

Lemma memset_inv (buf : list byte) (off n : nat) (b : byte) (buf' : list byte) :
  memset buf off b n = Ok buf' →
  off + n ≤ length buf ∧
  buf' = take off buf ++ replicate n b ++ drop (off + n) buf.
Proof. unfold memset. case_decide; [|discriminate]. intros [= <-]. done. Qed.

(** ** Get flags *)

Lemma to_nat_le_255 (b : byte) : Byte.to_nat b ≤ 255.
Proof. apply Byte.to_nat_bounded. Qed.

Lemma get_flags_inv (lock_bytes : list byte) (p : policy) :
  get_flags lock_bytes = Ok p →
  0 < pubkeys_cnt p ∧ 0 < threshold p ∧ threshold p ≤ pubkeys_cnt p ∧
  require_first_n p ≤ threshold p ∧ pubkeys_cnt p ≤ 255 ∧
  length lock_bytes = multisig_script_len p + signatures_len p.
Proof.
  unfold get_flags. intros H.
  unbind H as b3.
  unbind H as b2.
  unbind H as b1.
  pose proof (to_nat_le_255 b3).
  repeat case_decide; try discriminate; injection H as <-; simpl in *; lia.
Qed.

(** C2.  The checks of the flags, in the order of the source: for lock bytes
    of at least [FLAGS_SIZE] bytes with [N = lock_bytes[3]],
    [M = lock_bytes[2]], [R = lock_bytes[1]], the result is
    [ERROR_INVALID_PUBKEYS_CNT] when [N = 0]; otherwise
    [ERROR_INVALID_THRESHOLD] when [M > N]; otherwise, with [M' = N] if
    [M = 0] and [M' = M] if not, [ERROR_INVALID_REQUIRE_FIRST_N] when
    [R > M']; otherwise [ERROR_WITNESS_LEN] unless the length is
    [4 + 33 * N + 65 * M']; otherwise the flags [N], [M'], [R]. *)
Theorem get_flags_check_order (lock_bytes : list byte) :
  FLAGS_SIZE ≤ length lock_bytes →
  let N := Byte.to_nat (nth 3 lock_bytes x00) in
  let M := Byte.to_nat (nth 2 lock_bytes x00) in
  let R := Byte.to_nat (nth 1 lock_bytes x00) in
  let M' := if decide (M = 0) then N else M in
  (N = 0 → get_flags lock_bytes = Stop (Exit ERROR_INVALID_PUBKEYS_CNT)) ∧
  (N ≠ 0 → N < M → get_flags lock_bytes = Stop (Exit ERROR_INVALID_THRESHOLD)) ∧
  (N ≠ 0 → M ≤ N → M' < R →
     get_flags lock_bytes = Stop (Exit ERROR_INVALID_REQUIRE_FIRST_N)) ∧
  (N ≠ 0 → M ≤ N → R ≤ M' → length lock_bytes ≠ 4 + 33 * N + 65 * M' →
     get_flags lock_bytes = Stop (Exit ERROR_WITNESS_LEN)) ∧
  (N ≠ 0 → M ≤ N → R ≤ M' → length lock_bytes = 4 + 33 * N + 65 * M' →
     get_flags lock_bytes =
       Ok {| pubkeys_cnt := N; threshold := M'; require_first_n := R |}).
Proof.
  intros Hlen N M R M'. unfold FLAGS_SIZE in Hlen.
  unfold get_flags.
  rewrite !index_lt by lia. rewrite !bind_Ok.
  fold N M R. cbv zeta. fold M'.
  unfold multisig_script_len, signatures_len, FLAGS_SIZE, PUBKEY_SIZE,
    SIGNATURE_SIZE; simpl pubkeys_cnt; simpl threshold.
  repeat split; intros; repeat case_decide; first [done | lia].
Qed.

Lemma get_flags_check_order_sample :
  FLAGS_SIZE ≤ length Sample.lock_2_of_2 ∧
  get_flags Sample.lock_2_of_2 =
    Ok {| pubkeys_cnt := 2; threshold := 2; require_first_n := 1 |}.
Proof.
  assert (H : FLAGS_SIZE ≤ length Sample.lock_2_of_2) by (vm_compute; lia).
  split; [exact H|].
  apply (get_flags_check_order Sample.lock_2_of_2 H); vm_compute; first [lia | reflexivity].
Defined.

(** ** The stages before the signatures are verified *)

Section Stages.
Context {blake2b_state signature pubkey : Type}.
Variable e : Env blake2b_state signature pubkey.

Lemma prepare_inv (s : prepared) :
  prepare e = Ok s →
  ∃ script args_pos witness0 witness_len lock_pos temp0 tx_hash,
    load_args e = Ok (script, args_pos) ∧
    load_first_witness e = Ok (witness0, witness_len, lock_pos) ∧
    ptr lock_pos + size lock_pos ≤ length witness0 ∧
    get_flags (extracted_lock witness0 lock_pos) = Ok (pr_policy s) ∧
    check_multisig_script_hash e script args_pos
      (extracted_lock witness0 lock_pos) (pr_policy s) [] = Ok temp0 ∧
    load_tx_hash e = Ok tx_hash ∧
    prepare_sign_message e tx_hash witness_len lock_pos (pr_policy s)
      {| witness := witness0;
         lock_bytes := extracted_lock witness0 lock_pos;
         temp := temp0 |} = Ok (pr_message s, pr_buffers s).
Proof.
  unfold prepare. intros H.
  unbind H as [script args_pos] Hargs.
  unbind H as [[witness0 witness_len] lock_pos] Hwit.
  unbind H as lock Hlock.
  unbind H as p Hflags.
  unbind H as temp0 Hhash.
  unbind H as tx_hash Htx.
  unbind H as [message b] Hmsg.
  injection H as <-. simpl.
  apply load_inv in Hlock as [Hle ->].
  exists script, args_pos, witness0, witness_len, lock_pos, temp0, tx_hash.
  done.
Qed.

Lemma prepare_sign_message_inv (tx_hash : list byte) (witness_len : nat)
    (lock_pos : mol_pos) (p : policy) (b : buffers) (message : list byte)
    (b' : buffers) :
  prepare_sign_message e tx_hash witness_len lock_pos p b = Ok (message, b') →
  ptr lock_pos + multisig_script_len p + signatures_len p ≤ length (witness b) ∧
  witness b' =
    take (ptr lock_pos + multisig_script_len p) (witness b)
    ++ replicate (signatures_len p) x00
    ++ drop (ptr lock_pos + multisig_script_len p + signatures_len p) (witness b) ∧
  lock_bytes b' = lock_bytes b.
Proof.
  unfold prepare_sign_message. intros H.
  unbind H as hash.
  unbind H as w Hw.
  unbind H as bytes.
  unbind H as [c t].
  injection H as _ <-. simpl.
  apply memset_inv in Hw as [Hle ->]. done.
Qed.

(** C4.  For a validated multisig script and a 20-byte script argument, the
    check hashes exactly the first [4 + 33 * pubkeys_cnt] bytes of the lock
    (flags and public keys, no signature) to 32 bytes, and compares the
    first 20 bytes of the hash with the argument: it goes on when they are
    equal and returns [ERROR_MULTSIG_SCRIPT_HASH] when they differ. *)
Theorem check_multisig_script_hash_spec (script : list byte)
    (args_pos : mol_pos) (lock_bytes : list byte) (p : policy)
    (temp args : list byte) :
  get_flags lock_bytes = Ok p →
  load script (ptr args_pos) BLAKE160_SIZE = Ok args →
  length (multisig_script_hash e lock_bytes p) = BLAKE2B_BLOCK_SIZE →
  multisig_script_len p = 4 + 33 * pubkeys_cnt p ∧
  (take BLAKE160_SIZE (multisig_script_hash e lock_bytes p) = args →
     check_multisig_script_hash e script args_pos lock_bytes p temp
     = Ok (multisig_script_hash e lock_bytes p ++ drop BLAKE2B_BLOCK_SIZE temp)) ∧
  (take BLAKE160_SIZE (multisig_script_hash e lock_bytes p) ≠ args →
     check_multisig_script_hash e script args_pos lock_bytes p temp
     = Stop (Exit ERROR_MULTSIG_SCRIPT_HASH)).
Proof.
  intros Hflags Hargs Hlen.
  apply get_flags_inv in Hflags as (_ & _ & _ & _ & _ & Hlock).
  split; [reflexivity|].
  assert (Hcheck :
    check_multisig_script_hash e script args_pos lock_bytes p temp =
    if decide (args ≠ take BLAKE160_SIZE (multisig_script_hash e lock_bytes p))
    then Stop (Exit ERROR_MULTSIG_SCRIPT_HASH)
    else Ok (multisig_script_hash e lock_bytes p ++ drop BLAKE2B_BLOCK_SIZE temp)).
  { unfold check_multisig_script_hash.
    rewrite (load_le lock_bytes) by lia. rewrite bind_Ok, drop_0.
    fold (multisig_script_hash e lock_bytes p).
    rewrite take_ge by lia.
    rewrite store_le by (rewrite Hlen; unfold BLAKE2B_BLOCK_SIZE, TEMP_SIZE; lia).
    rewrite bind_Ok, Hargs, bind_Ok, Hlen.
    rewrite load_le
      by (rewrite length_app, Hlen; unfold BLAKE2B_BLOCK_SIZE, BLAKE160_SIZE; lia).
    rewrite bind_Ok, drop_0.
    rewrite take_app_le by (rewrite Hlen; unfold BLAKE2B_BLOCK_SIZE, BLAKE160_SIZE; lia).
    reflexivity. }
  rewrite Hcheck.
  split; intros H; case_decide; congruence.
Qed.

Lemma prepare_buffers (s : prepared) (witness0 : list byte)
    (witness_len : nat) (lock_pos : mol_pos) :
  load_first_witness e = Ok (witness0, witness_len, lock_pos) →
  prepare e = Ok s →
  witness (pr_buffers s) = zeroed witness0 lock_pos (pr_policy s) ∧
  lock_bytes (pr_buffers s) = extracted_lock witness0 lock_pos ∧
  get_flags (lock_bytes (pr_buffers s)) = Ok (pr_policy s).
Proof.
  intros Hwit Hprep.
  apply prepare_inv in Hprep
    as (script & args_pos & w & wl & lp & temp0 & tx_hash
        & _ & Hwit' & _ & Hflags & _ & _ & Hmsg).
  rewrite Hwit in Hwit'. injection Hwit' as <- <- <-.
  apply prepare_sign_message_inv in Hmsg as (_ & Hw & Hl). simpl in Hw, Hl.
  rewrite Hl. done.
Qed.

(** C6, as the source has it.  The signature area is set to zero in the
    witness buffer itself, at [lock_bytes_res.pos.ptr + multisig_script_len]:
    when [main] reaches the signatures, the witness buffer is the witness
    the host returned with these [signatures_len] bytes zero.  The bytes
    that the flags were read from and that were hashed for the script hash
    are those of [lock_bytes], the copy taken before; it still holds the
    lock field as the host returned it. *)
Theorem zeroing_is_in_place (s : prepared) (witness0 : list byte)
    (witness_len : nat) (lock_pos : mol_pos) :
  load_first_witness e = Ok (witness0, witness_len, lock_pos) →
  prepare e = Ok s →
  witness (pr_buffers s) = zeroed witness0 lock_pos (pr_policy s) ∧
  lock_bytes (pr_buffers s) = extracted_lock witness0 lock_pos ∧
  get_flags (lock_bytes (pr_buffers s)) = Ok (pr_policy s) ∧
  ∃ script args_pos temp0,
    load_args e = Ok (script, args_pos) ∧
    check_multisig_script_hash e script args_pos (lock_bytes (pr_buffers s))
      (pr_policy s) [] = Ok temp0.
Proof.
  intros Hwit Hprep.
  destruct (prepare_buffers s witness0 witness_len lock_pos Hwit Hprep)
    as (Hw & Hl & Hflags).
  do 3 (split; [done|]).
  apply prepare_inv in Hprep
    as (script & args_pos & w & wl & lp & temp0 & tx_hash
        & Hargs & Hwit' & _ & _ & Hhash & _ & _).
  rewrite Hwit in Hwit'. injection Hwit' as <- <- <-.
  exists script, args_pos, temp0. rewrite Hl. done.
Qed.
End Stages.

Lemma check_multisig_script_hash_sample :
  check_multisig_script_hash Sample.two_of_two
    (Sample.script_of Sample.lock_2_of_2) Sample.args_pos Sample.lock_2_of_2
    Sample.flags_2_of_2 []
  = Ok (multisig_script_hash Sample.two_of_two Sample.lock_2_of_2
          Sample.flags_2_of_2 ++ drop BLAKE2B_BLOCK_SIZE []).
Proof.
  apply (check_multisig_script_hash_spec Sample.two_of_two
           (Sample.script_of Sample.lock_2_of_2) Sample.args_pos
           Sample.lock_2_of_2 Sample.flags_2_of_2 []
           (take BLAKE160_SIZE Sample.lock_2_of_2));
    vm_compute; reflexivity.
Defined.

Lemma prepare_two_of_two :
  prepare Sample.two_of_two = Ok Sample.prepared_2_of_2.
Proof. vm_compute. reflexivity. Qed.

Lemma load_first_witness_two_of_two :
  load_first_witness Sample.two_of_two
  = Ok (Sample.first_witness, length Sample.first_witness, Sample.lock_pos).
Proof. vm_compute. reflexivity. Qed.

Lemma zeroing_is_in_place_sample :
  witness (pr_buffers Sample.prepared_2_of_2)
  = zeroed Sample.first_witness Sample.lock_pos Sample.flags_2_of_2 ∧
  lock_bytes (pr_buffers Sample.prepared_2_of_2)
  = extracted_lock Sample.first_witness Sample.lock_pos ∧
  get_flags (lock_bytes (pr_buffers Sample.prepared_2_of_2))
  = Ok Sample.flags_2_of_2 ∧
  ∃ script args_pos temp0,
    load_args Sample.two_of_two = Ok (script, args_pos) ∧
    check_multisig_script_hash Sample.two_of_two script args_pos
      (lock_bytes (pr_buffers Sample.prepared_2_of_2)) Sample.flags_2_of_2 []
    = Ok temp0.
Proof.
  apply (zeroing_is_in_place Sample.two_of_two Sample.prepared_2_of_2
           Sample.first_witness (length Sample.first_witness) Sample.lock_pos
           load_first_witness_two_of_two prepare_two_of_two).
Defined.

(** C6 as the specification states it fails: on [two_of_two] the witness
    buffer that the lock was extracted from is not what the host returned
    once the digest is built. *)
Lemma witness_buffer_is_overwritten :
  load_first_witness Sample.two_of_two
  = Ok (Sample.first_witness, length Sample.first_witness, Sample.lock_pos) ∧
  prepare Sample.two_of_two = Ok Sample.prepared_2_of_2 ∧
  witness (pr_buffers Sample.prepared_2_of_2) ≠ Sample.first_witness.
Proof.
  split; [apply load_first_witness_two_of_two|].
  split; [apply prepare_two_of_two|].
  refine (proj1 (bool_decide_eq_false _) _). vm_compute. reflexivity.
Qed.

(** ** The signatures are read from the copy *)

Lemma take_drop_zeroed (w : list byte) (a n k m : nat) :
  a ≤ length w → k + m ≤ n →
  take m (drop (a + k) (take a w ++ replicate n x00 ++ drop (a + n) w))
  = replicate m x00.
Proof.
  intros Ha Hk.
  rewrite drop_app_add' by (rewrite length_take; lia).
  rewrite drop_app_le by (rewrite length_replicate; lia).
  rewrite take_app_le by (rewrite length_drop, length_replicate; lia).
  rewrite drop_replicate, take_replicate. f_equal. lia.
Qed.

Lemma load_signature_slice (lock_bytes : list byte) (p : policy) (i : nat) :
  multisig_script_len p + i * SIGNATURE_SIZE + SIGNATURE_SIZE ≤ length lock_bytes →
  ∃ input64 recid,
    load_signature lock_bytes p i = Ok (input64, recid) ∧
    input64 ++ [recid]
    = take SIGNATURE_SIZE (drop (multisig_script_len p + i * SIGNATURE_SIZE) lock_bytes).
Proof.
  intros Hle. unfold load_signature.
  set (off := multisig_script_len p + i * SIGNATURE_SIZE) in *.
  unfold SIGNATURE_SIZE, RECID_INDEX in *.
  rewrite load_le by lia. rewrite bind_Ok.
  rewrite index_lt by lia. rewrite bind_Ok.
  eexists _, _. split; [reflexivity|].
  symmetry. apply take_S_r.
  rewrite lookup_drop, nth_lookup.
  destruct (lookup_lt_is_Some_2 lock_bytes (off + 64)) as [b ->]; [lia | done].
Qed.

(** ** Blobs that the host cannot or should not supply *)

Section Loads.
Context {blake2b_state signature pubkey : Type}.
Variable e : Env blake2b_state signature pubkey.

Lemma syscall_failure (r : load_res) (len : nat) :
  ret r ≠ CKB_SUCCESS → syscall r len = (ret r, len, []).
Proof. unfold syscall. destruct (ret r); congruence. Qed.

Lemma load_args_failure :
  ret (host_script e) ≠ CKB_SUCCESS → load_args e = Stop (Exit ERROR_SYSCALL).
Proof.
  intros H. unfold load_args. rewrite syscall_failure by done.
  unfold store. simpl. rewrite decide_True by done. reflexivity.
Qed.

Lemma load_first_witness_failure :
  first_witness_ret e ≠ CKB_SUCCESS →
  load_first_witness e = Stop (Exit ERROR_SYSCALL).
Proof.
  unfold first_witness_ret, load_first_witness, ckb_load_witness.
  destruct (host_witnesses e) as [|r ws]; simpl.
  - intros _. reflexivity.
  - unfold syscall. destruct (ret r); simpl; intros H; done.
Qed.

(** C7, as the source has it.  [main] never compares the length the host
    reports with the capacity of the buffer; what it checks is the return
    value of the load.  When loading the script fails, [main] returns
    [ERROR_SYSCALL] whatever the readers would do with the blob; when the
    script is well formed and loading the first witness fails, it returns
    [ERROR_SYSCALL] as well. *)
Theorem failed_load_is_syscall_error :
  (ret (host_script e) ≠ CKB_SUCCESS → main e = Exit ERROR_SYSCALL) ∧
  (∀ script args_pos,
     load_args e = Ok (script, args_pos) →
     first_witness_ret e ≠ CKB_SUCCESS →
     main e = Exit ERROR_SYSCALL).
Proof.
  split.
  - intros H. unfold main, prepare. rewrite load_args_failure by done.
    reflexivity.
  - intros script args_pos Hargs H. unfold main, prepare.
    rewrite Hargs, bind_Ok. rewrite load_first_witness_failure by done.
    reflexivity.
Qed.
End Loads.

Lemma failed_load_is_syscall_error_sample :
  main Sample.no_script = Exit ERROR_SYSCALL ∧
  main Sample.no_witness = Exit ERROR_SYSCALL.
Proof.
  split.
  - apply (proj1 (failed_load_is_syscall_error Sample.no_script)).
    vm_compute. discriminate.
  - apply (proj2 (failed_load_is_syscall_error Sample.no_witness)
             (Sample.script_of Sample.lock_2_of_2) Sample.args_pos).
    + vm_compute. reflexivity.
    + vm_compute. discriminate.
Defined.

(** C7 as the specification states it fails: the host supplies a script blob
    of more than 32 KiB and the call is accepted; it supplies a first witness
    of more than 32 KiB and the call does not return [ERROR_SYSCALL] either,
    the lock is extracted and the flags are read first. *)
Lemma oversize_blob_is_not_rejected :
  (ret (host_script Sample.long_script) = CKB_SUCCESS ∧
   (MAX_SCRIPT_SIZE <? len_out (host_script Sample.long_script)) = true ∧
   main Sample.long_script = Exit 0) ∧
  (first_witness_ret Sample.long_first_witness = CKB_SUCCESS ∧
   (∃ r, head (host_witnesses Sample.long_first_witness) = Some r ∧
         (MAX_WITNESS_SIZE <? len_out r) = true) ∧
   main Sample.long_first_witness ≠ Exit ERROR_SYSCALL).
Proof.
  split; [|split; [|split]].
  - repeat split; vm_compute; reflexivity.
  - vm_compute. reflexivity.
  - eexists. split; [reflexivity|]. vm_compute. reflexivity.
  - refine (proj1 (bool_decide_eq_false _) _). vm_compute. reflexivity.
Qed.


(** ** The scan over the public keys, within the allocated entries *)

Section Scan.
Variables (lock_bytes temp candidate : list byte) (N : nat).
Hypothesis temp_candidate : load temp 0 PUBKEY_SIZE = Ok candidate.
Hypothesis lock_keys : FLAGS_SIZE + N * PUBKEY_SIZE ≤ length lock_bytes.

Lemma load_pubkey (i : nat) :
  i < N →
  load lock_bytes (FLAGS_SIZE + i * PUBKEY_SIZE) PUBKEY_SIZE
  = Ok (pubkey_at lock_bytes i).
Proof using lock_keys.
  intros Hi. apply load_le. unfold PUBKEY_SIZE, FLAGS_SIZE in *. lia.
Qed.

(** As long as [used_signatures] has an entry for every public key, the scan
    is step 4 of the specification's matcher. *)
Lemma check_pubkeys_select (n i : nat) (used : list byte) :
  i + n = N → length used = N →
  match spec_select (pubkey_at lock_bytes <$> seq i n)
          (drop i (match_state_of used)) candidate with
  | None => check_pubkeys lock_bytes temp used i n = Ok (false, used)
  | Some ms =>
      ∃ used', check_pubkeys lock_bytes temp used i n = Ok (true, used') ∧
               length used' = N ∧
               match_state_of used' = take i (match_state_of used) ++ ms
  end.
Proof using temp_candidate lock_keys.
  revert i. induction n as [|n IH]; intros i Hin Hlen; simpl; [done|].
  assert (Hi : i < length used) by lia.
  destruct (lookup_lt_is_Some_2 used i Hi) as [u Hu].
  assert (Hm : match_state_of used !! i = Some (bool_decide (u = x01))).
  { unfold match_state_of. rewrite list_lookup_fmap, Hu. reflexivity. }
  rewrite (drop_S _ _ _ Hm).
  unfold index. rewrite Hu, bind_Ok.
  specialize (IH (S i) ltac:(lia) Hlen).
  assert (Hnext :
    match cons (bool_decide (u = x01)) <$>
            spec_select (pubkey_at lock_bytes <$> seq (S i) n)
              (drop (S i) (match_state_of used)) candidate with
    | None => check_pubkeys lock_bytes temp used (S i) n = Ok (false, used)
    | Some ms =>
        ∃ used', check_pubkeys lock_bytes temp used (S i) n = Ok (true, used') ∧
                 length used' = N ∧
                 match_state_of used' = take i (match_state_of used) ++ ms
    end).
  { destruct (spec_select _ _ _) as [ms|]; simpl; [|done].
    destruct IH as (used' & Hc & Hl & Hms). exists used'.
    rewrite Hc, Hl, Hms, (take_S_r _ _ _ Hm), <- app_assoc. done. }
  case_decide as Hused.
  - rewrite bool_decide_eq_true_2 in * by done. exact Hnext.
  - rewrite bool_decide_eq_false_2 in * by done. simpl.
    change (S (S (S (S (i * PUBKEY_SIZE))))) with (FLAGS_SIZE + i * PUBKEY_SIZE).
    rewrite load_pubkey by lia. rewrite bind_Ok, temp_candidate, bind_Ok.
    case_decide as Hk.
    + rewrite bool_decide_eq_false_2 by done. exact Hnext.
    + rewrite bool_decide_eq_true_2 by done.
      exists (<[i := x01]> used). rewrite length_insert.
      do 2 (split; [done|]).
      unfold match_state_of at 1. rewrite list_fmap_insert.
      rewrite insert_take_drop by (rewrite length_fmap; lia).
      reflexivity.
Qed.
End Scan.

Lemma check_require_first_n_forallb (used : list byte) (n i : nat) :
  i + n ≤ length used →
  check_require_first_n used i n =
    if forallb id (take n (drop i (match_state_of used))) then Ok ()
    else Stop (Exit ERROR_VERIFICATION).
Proof.
  revert i. induction n as [|n IH]; intros i Hi; simpl; [done|].
  destruct (lookup_lt_is_Some_2 used i ltac:(lia)) as [u Hu].
  assert (Hm : match_state_of used !! i = Some (bool_decide (u = x01))).
  { unfold match_state_of. rewrite list_lookup_fmap, Hu. reflexivity. }
  rewrite (drop_S _ _ _ Hm). simpl.
  unfold index. rewrite Hu, bind_Ok.
  destruct (decide (u = x01)) as [Hused|Hused].
  - rewrite decide_False by (intros H; apply H, Hused).
    rewrite bool_decide_eq_true_2 by done. simpl. apply IH. lia.
  - rewrite decide_True by done.
    rewrite bool_decide_eq_false_2 by done. reflexivity.
Qed.

Section Matcher.
Context {blake2b_state signature pubkey : Type}.
Variable e : Env blake2b_state signature pubkey.
Variables (lock_bytes : list byte) (p : policy) (message : list byte).
Hypothesis flags : get_flags lock_bytes = Ok p.
Hypothesis in_bounds : pubkeys_cnt p = threshold p.

Lemma verify_signatures_match (candidates : list (list byte)) (i : nat)
    (temp used : list byte) :
  length used = pubkeys_cnt p →
  recovers_to e lock_bytes p message i candidates →
  match spec_match (pubkeys lock_bytes (pubkeys_cnt p)) (match_state_of used)
          candidates with
  | None =>
      verify_signatures e lock_bytes p message temp used i (length candidates)
      = Stop (Exit ERROR_VERIFICATION)
  | Some ms =>
      ∃ used' temp',
        verify_signatures e lock_bytes p message temp used i (length candidates)
        = Ok (used', temp') ∧
        length used' = pubkeys_cnt p ∧ match_state_of used' = ms
  end.
Proof using flags in_bounds.
  pose proof (get_flags_inv _ _ flags) as (_ & _ & _ & _ & _ & Hlock).
  revert i temp used.
  induction candidates as [|c candidates IH]; intros i temp used Hlen Hrec; simpl.
  { eauto. }
  destruct (Hrec 0 c eq_refl) as [Hc Hrecover].
  rewrite Nat.add_0_r in Hrecover. rewrite Hrecover, bind_Ok.
  rewrite store_le by (rewrite Hc; unfold PUBKEY_SIZE, TEMP_SIZE; lia).
  rewrite bind_Ok.
  pose proof (check_pubkeys_select lock_bytes (c ++ drop (length c) temp) c
                (pubkeys_cnt p)) as Hscan.
  assert (Hload : load (c ++ drop (length c) temp) 0 PUBKEY_SIZE = Ok c).
  { rewrite load_le by (rewrite length_app; lia).
    rewrite drop_0, take_app_length' by done. reflexivity. }
  assert (Hkeys : FLAGS_SIZE + pubkeys_cnt p * PUBKEY_SIZE ≤ length lock_bytes).
  { unfold multisig_script_len in Hlock. lia. }
  specialize (Hscan Hload Hkeys (pubkeys_cnt p) 0 used eq_refl Hlen).
  rewrite drop_0, take_0 in Hscan. fold (pubkeys lock_bytes (pubkeys_cnt p)) in Hscan.
  destruct (spec_select _ _ c) as [ms|]; simpl.
  - destruct Hscan as (used' & -> & Hlen' & Hms). rewrite bind_Ok.
    simpl in Hms. rewrite <- Hms.
    apply IH; [done|].
    intros k c' Hk. replace (S i + k) with (i + S k) by lia. apply Hrec. done.
  - rewrite Hscan. reflexivity.
Qed.

(** Within the allocated entries the program is the matcher of the
    specification: when [used_signatures] has an entry for every public key
    ([pubkeys_cnt = threshold]) and the signatures recover to [candidates],
    "Verify threshold signatures" ends as steps 4 and 5 of section 4.4 do. *)
Theorem verify_threshold_signatures_in_bounds (candidates : list (list byte))
    (temp : list byte) :
  secp256k1_initialize e = 0%Z →
  length candidates = threshold p →
  recovers_to e lock_bytes p message 0 candidates →
  verify_threshold_signatures e lock_bytes p message temp
  = spec_threshold_matcher (pubkeys lock_bytes (pubkeys_cnt p)) candidates
      (require_first_n p).
Proof using flags in_bounds.
  intros Hinit Hn Hrec.
  pose proof (get_flags_inv _ _ flags) as (_ & _ & _ & HR & _ & _).
  unfold verify_threshold_signatures, spec_threshold_matcher.
  rewrite decide_False by (intros H; apply H, Hinit).
  assert (Hk : length (pubkeys lock_bytes (pubkeys_cnt p)) = threshold p).
  { unfold pubkeys. rewrite length_fmap, length_seq. exact in_bounds. }
  rewrite Hk.
  pose proof (verify_signatures_match candidates 0 temp
                (replicate (threshold p) x00)) as Hv.
  rewrite length_replicate in Hv. specialize (Hv (eq_sym in_bounds) Hrec).
  unfold match_state_of in Hv at 1. rewrite fmap_replicate in Hv.
  rewrite bool_decide_eq_false_2 in Hv by done.
  rewrite Hn in Hv.
  destruct (spec_match _ _ candidates) as [ms|].
  - destruct Hv as (used' & temp' & -> & Hlen & <-). simpl.
    rewrite check_require_first_n_forallb by lia.
    rewrite drop_0. destruct (forallb _ _); reflexivity.
  - rewrite Hv. reflexivity.
Qed.
End Matcher.

(** ** One signature slot for each listed key *)

Section SameKey.
Variable K : list byte.

Lemma marks_key_count (keys : list (list byte)) (ms : list bool) :
  marks_key K keys ms → matched_count ms ≤ key_count K keys.
Proof.
  unfold marks_key, matched_count, key_count.
  induction 1 as [|k m keys ms Hkm _ IH]; [done|].
  rewrite !filter_cons. destruct m.
  - rewrite decide_True by done. rewrite decide_True by auto. simpl. lia.
  - rewrite (decide_False (P := false = true)) by done.
    case_decide; simpl; lia.
Qed.

Lemma spec_select_marks (keys : list (list byte)) (ms ms' : list bool) :
  spec_select keys ms K = Some ms' →
  marks_key K keys ms →
  marks_key K keys ms' ∧ matched_count ms' = S (matched_count ms).
Proof.
  unfold marks_key, matched_count.
  intros Hsel Hmarks. revert ms' Hsel.
  induction Hmarks as [|k m keys ms Hkm Hmarks IH]; intros ms' Hsel; [done|].
  simpl in Hsel.
  destruct (negb m && bool_decide (k = K)) eqn:Hhere.
  - injection Hsel as <-.
    apply andb_true_iff in Hhere as [Hm Hk].
    apply negb_true_iff in Hm as ->. apply bool_decide_eq_true in Hk.
    split; [constructor; done|].
    rewrite !filter_cons. rewrite decide_True by done.
    rewrite (decide_False (P := false = true)) by done. reflexivity.
  - destruct (spec_select keys ms K) as [ms''|]; [|done].
    injection Hsel as <-. destruct (IH ms'' eq_refl) as [IH1 IH2].
    split; [constructor; done|].
    rewrite !filter_cons. destruct (decide (m = true)); simpl; lia.
Qed.

(** The matcher of the specification fails when more signatures recover to
    [K] than there are entries of [K] left. *)
Lemma spec_match_same_key (keys : list (list byte)) (n : nat) (ms : list bool) :
  marks_key K keys ms →
  key_count K keys < matched_count ms + n →
  spec_match keys ms (replicate n K) = None.
Proof.
  revert ms. induction n as [|n IH]; intros ms Hmarks Hcount.
  - pose proof (marks_key_count keys ms Hmarks). lia.
  - simpl. destruct (spec_select keys ms K) as [ms'|] eqn:Hsel; [|done].
    simpl. destruct (spec_select_marks keys ms ms' Hsel Hmarks) as [Hm' Hc'].
    apply IH; [done | lia].
Qed.
End SameKey.

Lemma matched_count_replicate (n : nat) : matched_count (replicate n false) = 0.
Proof. induction n as [|n IH]; [done|]. exact IH. Qed.

Section Calls.
Context {blake2b_state signature pubkey : Type}.
Variable e : Env blake2b_state signature pubkey.

Lemma prepare_flags (s : prepared) :
  prepare e = Ok s → get_flags (lock_bytes (pr_buffers s)) = Ok (pr_policy s).
Proof.
  intros Hprep.
  apply prepare_inv in Hprep
    as (script & args_pos & w & wl & lp & temp0 & tx_hash
        & _ & _ & _ & Hflags & _ & _ & Hmsg).
  apply prepare_sign_message_inv in Hmsg as (_ & _ & ->). exact Hflags.
Qed.

Lemma main_prepared (s : prepared) :
  prepare e = Ok s →
  main e = verify_threshold_signatures e (lock_bytes (pr_buffers s))
             (pr_policy s) (pr_message s) (temp (pr_buffers s)).
Proof. intros H. unfold main. rewrite H. reflexivity. Qed.

(** Within the allocated entries the call ends as the matcher of the
    specification does. *)
Theorem main_in_bounds (s : prepared) (candidates : list (list byte)) :
  prepare e = Ok s →
  secp256k1_initialize e = 0%Z →
  pubkeys_cnt (pr_policy s) = threshold (pr_policy s) →
  length candidates = threshold (pr_policy s) →
  recovers_to e (lock_bytes (pr_buffers s)) (pr_policy s) (pr_message s) 0
    candidates →
  main e
  = spec_threshold_matcher
      (pubkeys (lock_bytes (pr_buffers s)) (pubkeys_cnt (pr_policy s)))
      candidates (require_first_n (pr_policy s)).
Proof.
  intros Hprep Hinit Hbounds Hn Hrec.
  rewrite (main_prepared s Hprep).
  apply verify_threshold_signatures_in_bounds;
    [apply (prepare_flags s Hprep) | done ..].
Qed.

(** C8, as the source has it.  A policy may list the same key at several
    indices, and each of them takes one signature.  When every one of the
    [threshold] signatures recovers to the key [K] and [K] is listed at fewer
    than [threshold] indices, the call returns [ERROR_VERIFICATION].  This is
    stated for [pubkeys_cnt = threshold], where [used_signatures] has an
    entry for every index that the scan reads. *)
Theorem repeated_signature_is_rejected (s : prepared) (K : list byte) :
  prepare e = Ok s →
  secp256k1_initialize e = 0%Z →
  pubkeys_cnt (pr_policy s) = threshold (pr_policy s) →
  length K = PUBKEY_SIZE →
  (∀ i, i < threshold (pr_policy s) →
        recover_pubkey e (lock_bytes (pr_buffers s)) (pr_policy s)
          (pr_message s) i = Ok K) →
  key_count K (pubkeys (lock_bytes (pr_buffers s)) (pubkeys_cnt (pr_policy s)))
  < threshold (pr_policy s) →
  main e = Exit ERROR_VERIFICATION.
Proof.
  intros Hprep Hinit Hbounds HK Hrec Hcount.
  rewrite (main_prepared s Hprep).
  rewrite (verify_threshold_signatures_in_bounds e _ _ _
             (prepare_flags s Hprep) Hbounds
             (replicate (threshold (pr_policy s)) K)); [|done| |].
  - unfold spec_threshold_matcher.
    rewrite spec_match_same_key; [done| |].
    + apply Forall2_replicate_r; [reflexivity|].
      apply Forall_forall. intros k _. discriminate.
    + rewrite matched_count_replicate. lia.
  - apply length_replicate.
  - intros k c [-> Hk]%lookup_replicate. split; [done|]. apply Hrec. exact Hk.
Qed.
End Calls.

Lemma main_in_bounds_sample :
  main Sample.two_of_two
  = spec_threshold_matcher [Sample.key_a; Sample.key_b]
      [Sample.key_b; Sample.key_a] 1.
Proof.
  apply (main_in_bounds Sample.two_of_two Sample.prepared_2_of_2
           [Sample.key_b; Sample.key_a] prepare_two_of_two).
  - reflexivity.
  - reflexivity.
  - reflexivity.
  - intros [|[|k]] c Hc; try discriminate;
      injection Hc as <-; split; vm_compute; reflexivity.
Defined.

Lemma prepare_repeated :
  prepare Sample.repeated
  = Ok (Sample.prepared_for Sample.lock_repeated Sample.flags_2_of_2_free).
Proof. vm_compute. reflexivity. Qed.

Lemma repeated_signature_is_rejected_sample :
  main Sample.repeated = Exit ERROR_VERIFICATION.
Proof.
  apply (repeated_signature_is_rejected Sample.repeated
           (Sample.prepared_for Sample.lock_repeated Sample.flags_2_of_2_free)
           Sample.key_a prepare_repeated).
  - reflexivity.
  - reflexivity.
  - reflexivity.
  - intros [|[|i]] Hi; [vm_compute; reflexivity .. |].
    simpl in Hi. lia.
  - vm_compute. lia.
Defined.

(** C8 as the specification states it fails: with the key A listed at both
    indices of a two-of-two policy, the signature of A given twice is
    accepted. *)
Lemma key_listed_twice_is_matched_twice :
  let s := Sample.prepared_for Sample.lock_listed_twice Sample.flags_2_of_2_free in
  prepare Sample.listed_twice = Ok s ∧
  2 ≤ threshold (pr_policy s) ∧
  (∀ i, i < threshold (pr_policy s) →
        recover_pubkey Sample.listed_twice (lock_bytes (pr_buffers s))
          (pr_policy s) (pr_message s) i = Ok Sample.key_a) ∧
  Sample.key_a ∈ pubkeys (lock_bytes (pr_buffers s)) (pubkeys_cnt (pr_policy s)) ∧
  main Sample.listed_twice = Exit 0.
Proof.
  split; [|split; [|split; [|split]]].
  - vm_compute. reflexivity.
  - vm_compute. lia.
  - intros [|[|i]] Hi; [vm_compute; reflexivity .. |].
    simpl in Hi. lia.
  - vm_compute. left.
  - vm_compute. reflexivity.
Qed.

(** ** Where the program leaves defined behaviour *)

(** C5 at a one-of-two policy signed by the holder of the second key:
    [used_signatures] has [threshold = 1] entry, the scan runs over
    [pubkeys_cnt = 2] indices, and its second step reads
    [used_signatures[1]]. *)
Lemma scan_reads_past_used_signatures :
  let s := Sample.prepared_for Sample.lock_1_of_2 Sample.flags_1_of_2 in
  let used_signatures := replicate (threshold (pr_policy s)) x00 in
  let temp := Sample.key_b ++ drop PUBKEY_SIZE (temp (pr_buffers s)) in
  prepare Sample.one_of_two = Ok s ∧
  length used_signatures = 1 ∧
  pubkeys_cnt (pr_policy s) = 2 ∧
  recover_pubkey Sample.one_of_two (lock_bytes (pr_buffers s)) (pr_policy s)
    (pr_message s) 0 = Ok Sample.key_b ∧
  check_pubkeys (lock_bytes (pr_buffers s)) temp used_signatures 0 1
  = Ok (false, used_signatures) ∧
  index used_signatures 1 = Stop Undefined ∧
  check_pubkeys (lock_bytes (pr_buffers s)) temp used_signatures 0
    (pubkeys_cnt (pr_policy s)) = Stop Undefined ∧
  main Sample.one_of_two = Undefined.
Proof. repeat split; vm_compute; reflexivity. Qed.

(** C1 at the scenario of section 8 of the specification, keys A, B, C with
    two signatures required and the first key mandatory, signed by C then A:
    the matcher of the specification selects index 2 for the first signature
    and index 0 for the second and accepts; the scan of the program for the
    first signature reads [used_signatures[2]] of an array of two entries,
    and the program does not return. *)
Lemma matcher_differs_past_threshold :
  let s := Sample.prepared_for Sample.lock_2_of_3 Sample.flags_2_of_3 in
  let keys := pubkeys (lock_bytes (pr_buffers s)) (pubkeys_cnt (pr_policy s)) in
  prepare Sample.two_of_three = Ok s ∧
  keys = [Sample.key_a; Sample.key_b; Sample.key_c] ∧
  recovers_to Sample.two_of_three (lock_bytes (pr_buffers s)) (pr_policy s)
    (pr_message s) 0 [Sample.key_c; Sample.key_a] ∧
  spec_match keys [false; false; false] [Sample.key_c; Sample.key_a]
  = Some [true; false; true] ∧
  spec_threshold_matcher keys [Sample.key_c; Sample.key_a]
    (require_first_n (pr_policy s)) = Exit 0 ∧
  check_pubkeys (lock_bytes (pr_buffers s))
    (Sample.key_c ++ drop PUBKEY_SIZE (temp (pr_buffers s)))
    (replicate (threshold (pr_policy s)) x00) 0 (pubkeys_cnt (pr_policy s))
  = Stop Undefined ∧
  main Sample.two_of_three = Undefined.
Proof.
  split; [vm_compute; reflexivity|].
  split; [vm_compute; reflexivity|].
  split.
  { intros [|[|k]] c Hc; try discriminate;
      injection Hc as <-; split; vm_compute; reflexivity. }
  repeat split; vm_compute; reflexivity.
Qed.

(** C3 at a call whose second group witness has [TEMP_SIZE + 1] bytes: the
    load of line 172 is given [temp], an array of [TEMP_SIZE] bytes, with
    [len = MAX_WITNESS_SIZE], and the host writes past its end; with the
    three-byte second witness of [two_of_two] the same call is accepted. *)
Lemma long_witness_overflows_temp :
  let w := replicate (TEMP_SIZE + 1) x05 in
  host_witnesses Sample.long_witness
  = Sample.blob <$> [Sample.framed Sample.lock_2_of_2; w] ∧
  (length w <=? MAX_WITNESS_SIZE) = true ∧
  (∀ c temp, digest_other_witnesses Sample.long_witness [Sample.blob w] c temp
             = Stop Undefined) ∧
  main Sample.long_witness = Undefined ∧
  main Sample.two_of_two = Exit 0.
Proof.
  repeat split; vm_compute; reflexivity.
Qed.

(** ** The digest, for witnesses that fit [temp] *)

Section Digest.
Context {blake2b_state signature pubkey : Type}.
Variable e : Env blake2b_state signature pubkey.

Lemma syscall_fits (r : load_res) :
  fits_temp r →
  syscall r MAX_WITNESS_SIZE = (CKB_SUCCESS, length (data r), data r).
Proof.
  intros (Hret & Hlen & Hfit). unfold syscall. rewrite Hret, Hlen.
  rewrite take_ge by (unfold MAX_WITNESS_SIZE, TEMP_SIZE in *; lia).
  reflexivity.
Qed.

Lemma store_load_fits (temp bytes : list byte) :
  length bytes ≤ TEMP_SIZE →
  store TEMP_SIZE temp bytes = Ok (bytes ++ drop (length bytes) temp) ∧
  load (bytes ++ drop (length bytes) temp) 0 (length bytes) = Ok bytes.
Proof.
  intros Hfit. split; [apply store_le, Hfit|].
  rewrite load_le by (rewrite length_app; lia).
  rewrite drop_0, take_app_length. reflexivity.
Qed.

Lemma digest_other_witnesses_fits (ws : list load_res) (c : blake2b_state)
    (temp : list byte) :
  Forall fits_temp ws →
  ∃ temp', digest_other_witnesses e ws c temp
           = Ok (fold_left (blake2b_update e) (data <$> ws) c, temp').
Proof.
  intros Hws. revert c temp.
  induction Hws as [|r ws Hr _ IH]; intros c temp; simpl; [eauto|].
  rewrite (syscall_fits r Hr).
  destruct Hr as (_ & _ & Hfit).
  destruct (store_load_fits temp (data r) Hfit) as [-> Hload].
  rewrite bind_Ok. rewrite decide_False by done.
  rewrite decide_False by (intros H; apply H; reflexivity).
  rewrite Hload, bind_Ok. apply IH.
Qed.

Lemma digest_other_witnesses_failure (ws ws' : list load_res) (r : load_res)
    (c : blake2b_state) (temp : list byte) (code : Z) :
  Forall fits_temp ws → ret r = CKB_OTHER code →
  digest_other_witnesses e (ws ++ r :: ws') c temp = Stop (Exit ERROR_SYSCALL).
Proof.
  intros Hws Hr. revert c temp.
  induction Hws as [|r0 ws Hr0 _ IH]; intros c temp; simpl.
  - unfold syscall. rewrite Hr. reflexivity.
  - rewrite (syscall_fits r0 Hr0).
    destruct Hr0 as (_ & _ & Hfit).
    destruct (store_load_fits temp (data r0) Hfit) as [-> Hload].
    rewrite bind_Ok. rewrite decide_False by done.
    rewrite decide_False by (intros H; apply H; reflexivity).
    rewrite Hload, bind_Ok. apply IH.
Qed.

(** The message of a call whose further witnesses fit [temp]: the hash of
    the transaction hash, then of the first [witness_len] bytes of the
    witness buffer with the signature area set to zero, then of each further
    witness of the group in order. *)
Theorem sign_message_digest (tx_hash : list byte) (witness_len : nat)
    (lock_pos : mol_pos) (p : policy) (b : buffers) :
  length tx_hash = BLAKE2B_BLOCK_SIZE →
  ptr lock_pos + multisig_script_len p + signatures_len p ≤ length (witness b) →
  witness_len ≤ length (witness b) →
  Forall fits_temp (drop 1 (host_witnesses e)) →
  ∃ temp',
    prepare_sign_message e tx_hash witness_len lock_pos p b
    = Ok (blake2b_final e
            (fold_left (blake2b_update e)
               (tx_hash :: take witness_len (zeroed (witness b) lock_pos p)
                :: (data <$> drop 1 (host_witnesses e)))
               (blake2b_init e BLAKE2B_BLOCK_SIZE))
            BLAKE2B_BLOCK_SIZE,
          {| witness := zeroed (witness b) lock_pos p;
             lock_bytes := lock_bytes b;
             temp := temp' |}).
Proof.
  intros Htx Hsig Hlen Hws. unfold prepare_sign_message.
  rewrite load_le by lia. rewrite bind_Ok, drop_0, take_ge by lia.
  unfold memset. rewrite decide_True by lia. rewrite bind_Ok.
  fold (zeroed (witness b) lock_pos p).
  assert (Hz : length (zeroed (witness b) lock_pos p) = length (witness b)).
  { unfold zeroed. rewrite !length_app, length_take, length_replicate, length_drop.
    lia. }
  rewrite load_le by lia. rewrite bind_Ok, drop_0.
  destruct (digest_other_witnesses_fits (drop 1 (host_witnesses e))
              (blake2b_update e
                 (blake2b_update e (blake2b_init e BLAKE2B_BLOCK_SIZE) tx_hash)
                 (take witness_len (zeroed (witness b) lock_pos p)))
              (temp b) Hws) as [temp' ->].
  exists temp'. reflexivity.
Qed.

(** A failure of the host on a further witness, other than
    [CKB_INDEX_OUT_OF_BOUND], ends the call with [ERROR_SYSCALL]. *)
Theorem sign_message_host_failure (tx_hash : list byte) (witness_len : nat)
    (lock_pos : mol_pos) (p : policy) (b : buffers) (ws ws' : list load_res)
    (r : load_res) (code : Z) :
  length tx_hash = BLAKE2B_BLOCK_SIZE →
  ptr lock_pos + multisig_script_len p + signatures_len p ≤ length (witness b) →
  witness_len ≤ length (witness b) →
  drop 1 (host_witnesses e) = ws ++ r :: ws' →
  Forall fits_temp ws → ret r = CKB_OTHER code →
  prepare_sign_message e tx_hash witness_len lock_pos p b
  = Stop (Exit ERROR_SYSCALL).
Proof.
  intros Htx Hsig Hlen Hdrop Hws Hr. unfold prepare_sign_message.
  rewrite load_le by lia. rewrite bind_Ok, drop_0, take_ge by lia.
  unfold memset. rewrite decide_True by lia. rewrite bind_Ok.
  fold (zeroed (witness b) lock_pos p).
  assert (Hz : length (zeroed (witness b) lock_pos p) = length (witness b)).
  { unfold zeroed. rewrite !length_app, length_take, length_replicate, length_drop.
    lia. }
  rewrite load_le by lia. rewrite bind_Ok, drop_0, Hdrop.
  rewrite (digest_other_witnesses_failure ws ws' r _ _ code Hws Hr).
  reflexivity.
Qed.
End Digest.

Lemma sign_message_digest_sample :
  ∃ temp',
    prepare_sign_message Sample.two_of_two Sample.tx_hash
      (length Sample.first_witness) Sample.lock_pos Sample.flags_2_of_2
      Sample.buffers_2_of_2
    = Ok (Sample.final
            (Sample.tx_hash
             ++ take (length Sample.first_witness)
                  (zeroed Sample.first_witness Sample.lock_pos Sample.flags_2_of_2)
             ++ [x01; x02; x03])
            BLAKE2B_BLOCK_SIZE,
          {| witness := zeroed Sample.first_witness Sample.lock_pos Sample.flags_2_of_2;
             lock_bytes := Sample.lock_2_of_2;
             temp := temp' |}).
Proof.
  destruct (sign_message_digest Sample.two_of_two Sample.tx_hash
              (length Sample.first_witness) Sample.lock_pos Sample.flags_2_of_2
              Sample.buffers_2_of_2) as [temp' H].
  - reflexivity.
  - vm_compute. lia.
  - vm_compute. lia.
  - repeat constructor; vm_compute; lia.
  - exists temp'. rewrite H. vm_compute. reflexivity.
Defined.

Lemma sign_message_host_failure_sample :
  prepare_sign_message Sample.failing_second Sample.tx_hash
    (length Sample.first_witness) Sample.lock_pos Sample.flags_2_of_2
    Sample.buffers_2_of_2
  = Stop (Exit ERROR_SYSCALL).
Proof.
  apply (sign_message_host_failure Sample.failing_second Sample.tx_hash
           (length Sample.first_witness) Sample.lock_pos Sample.flags_2_of_2
           Sample.buffers_2_of_2 [] []
           Sample.failure 2).
  - reflexivity.
  - vm_compute. lia.
  - vm_compute. lia.
  - reflexivity.
  - constructor.
  - reflexivity.
Defined.

(** ** Reads of the lock bytes *)

(** Once the flags are validated, the counts are ordered and at most 255, the
    lock has exactly the length they ask for, at most 24994 bytes
    ([4 + 33 * 255 + 65 * 255]), and every
    public key and every signature that the later blocks read lies inside
    [lock_bytes]. *)
Theorem validated_lock_reads (lock_bytes : list byte) (p : policy) :
  get_flags lock_bytes = Ok p →
  (1 ≤ threshold p ∧ threshold p ≤ pubkeys_cnt p ∧ pubkeys_cnt p ≤ 255 ∧
   require_first_n p ≤ threshold p) ∧
  length lock_bytes = 4 + 33 * pubkeys_cnt p + 65 * threshold p ∧
  length lock_bytes ≤ 4 + 33 * 255 + 65 * 255 ∧
  (∀ j, j < pubkeys_cnt p →
        load lock_bytes (FLAGS_SIZE + j * PUBKEY_SIZE) PUBKEY_SIZE
        = Ok (pubkey_at lock_bytes j) ∧
        length (pubkey_at lock_bytes j) = PUBKEY_SIZE) ∧
  (∀ i, i < threshold p →
        ∃ input64 recid,
          load_signature lock_bytes p i = Ok (input64, recid) ∧
          length input64 = RECID_INDEX).
Proof.
  intros Hflags.
  pose proof (get_flags_inv _ _ Hflags) as (HN & HM & HMN & HR & H255 & Hlen).
  unfold multisig_script_len, signatures_len, FLAGS_SIZE, PUBKEY_SIZE,
    SIGNATURE_SIZE in Hlen.
  split; [lia|]. split; [lia|]. split; [lia|]. split.
  - intros j Hj. unfold pubkey_at, PUBKEY_SIZE, FLAGS_SIZE. split.
    + apply load_le. lia.
    + rewrite length_take, length_drop. lia.
  - intros i Hi.
    destruct (load_signature_slice lock_bytes p i) as (input64 & recid & Hload & Hs).
    { unfold multisig_script_len, FLAGS_SIZE, PUBKEY_SIZE, SIGNATURE_SIZE. lia. }
    exists input64, recid. split; [exact Hload|].
    apply (f_equal length) in Hs.
    rewrite length_app, length_take, length_drop in Hs.
    change (length [recid]) with 1 in Hs.
    unfold multisig_script_len, FLAGS_SIZE, PUBKEY_SIZE, SIGNATURE_SIZE,
      RECID_INDEX in *. lia.
Qed.

Lemma validated_lock_reads_sample :
  length Sample.lock_2_of_2 = 4 + 33 * 2 + 65 * 2 ∧
  load Sample.lock_2_of_2 (FLAGS_SIZE + 1 * PUBKEY_SIZE) PUBKEY_SIZE
  = Ok Sample.key_b.
Proof.
  destruct (validated_lock_reads Sample.lock_2_of_2 Sample.flags_2_of_2)
    as (_ & Hlen & _ & Hkeys & _).
  - vm_compute. reflexivity.
  - split; [exact Hlen|].
    destruct (Hkeys 1) as [-> _]; [vm_compute; lia|].
    vm_compute. reflexivity.
Defined.

(** ** What a match writes *)

Lemma index_inv (buf : list byte) (i : nat) (b : byte) :
  index buf i = Ok b → buf !! i = Some b.
Proof. unfold index. destruct (buf !! i); congruence. Qed.

Lemma check_pubkeys_matched (lock_bytes temp used : list byte) (n i : nat)
    (used' : list byte) :
  check_pubkeys lock_bytes temp used i n = Ok (true, used') →
  ∃ j u c,
    i ≤ j < i + n ∧ used !! j = Some u ∧ u ≠ x01 ∧
    load lock_bytes (FLAGS_SIZE + j * PUBKEY_SIZE) PUBKEY_SIZE = Ok c ∧
    load temp 0 PUBKEY_SIZE = Ok c ∧
    used' = <[j := x01]> used.
Proof.
  revert i. induction n as [|n IH]; intros i H; [discriminate|].
  cbn [check_pubkeys] in H.
  assert (Hnext : check_pubkeys lock_bytes temp used (S i) n = Ok (true, used') →
                  ∃ j u c,
                    i ≤ j < i + S n ∧ used !! j = Some u ∧ u ≠ x01 ∧
                    load lock_bytes (FLAGS_SIZE + j * PUBKEY_SIZE) PUBKEY_SIZE = Ok c ∧
                    load temp 0 PUBKEY_SIZE = Ok c ∧
                    used' = <[j := x01]> used).
  { intros (j & u & c & Hj & Hrest)%IH. exists j, u, c. split; [lia | exact Hrest]. }
  unbind H as u Hu. apply index_inv in Hu.
  destruct (decide (u = x01)) as [->|Hne]; [auto|].
  unbind H as pk Hpk. unbind H as c Hc.
  destruct (decide (pk ≠ c)) as [Hd|Hd]; [auto|].
  apply dec_stable in Hd. subst pk. injection H as <-.
  exists i, u, c. repeat split; [lia | lia | done ..].
Qed.

Lemma check_pubkeys_unmatched (lock_bytes temp used : list byte) (n i : nat)
    (used' : list byte) :
  check_pubkeys lock_bytes temp used i n = Ok (false, used') → used' = used.
Proof.
  revert i. induction n as [|n IH]; intros i H.
  - injection H as <-. reflexivity.
  - cbn [check_pubkeys] in H.
    unbind H as u Hu.
    destruct (decide (u = x01)); [eauto|].
    unbind H as pk. unbind H as c.
    destruct (decide (pk ≠ c)); [eauto | discriminate].
Qed.

Lemma used_count_insert (used : list byte) (j : nat) (u : byte) :
  used !! j = Some u → u ≠ x01 →
  used_count (<[j := x01]> used) = S (used_count used).
Proof.
  unfold used_count. revert j.
  induction used as [|v used IH]; intros [|j] Hj Hu; try discriminate.
  - injection Hj as ->. simpl. rewrite !filter_cons.
    destruct (decide (x01 = x01)); [|done].
    destruct (decide (u = x01)); [done|]. reflexivity.
  - simpl. rewrite !filter_cons. specialize (IH j Hj Hu).
    destruct (decide (v = x01)); simpl; lia.
Qed.

Lemma used_count_full (used : list byte) :
  used_count used = length used → used = replicate (length used) x01.
Proof.
  unfold used_count. induction used as [|v used IH]; [done|].
  rewrite filter_cons. pose proof (length_filter (λ u, u = x01) used) as Hle.
  destruct (decide (v = x01)) as [->|]; simpl; intros H; [|lia].
  f_equal. apply IH. lia.
Qed.

Lemma used_count_zero (n : nat) : used_count (replicate n x00) = 0.
Proof. induction n as [|n IH]; [done|]. exact IH. Qed.

Lemma check_require_first_n_set (m n i : nat) :
  i + n ≤ m → check_require_first_n (replicate m x01) i n = Ok ().
Proof.
  revert i. induction n as [|n IH]; intros i Hi; [done|].
  cbn [check_require_first_n]. unfold index.
  rewrite lookup_replicate_2 by lia. rewrite bind_Ok.
  rewrite decide_False by (intros H; apply H; reflexivity).
  apply IH. lia.
Qed.

Section Marks.
Context {blake2b_state signature pubkey : Type}.
Variable e : Env blake2b_state signature pubkey.

Lemma verify_signatures_count (lock_bytes : list byte) (p : policy)
    (message : list byte) (n i : nat) (temp used used' temp' : list byte) :
  verify_signatures e lock_bytes p message temp used i n = Ok (used', temp') →
  length used' = length used ∧ used_count used' = used_count used + n.
Proof.
  revert i temp used. induction n as [|n IH]; intros i temp used H.
  - injection H as <- _. lia.
  - cbn [verify_signatures] in H.
    unbind H as output. unbind H as temp1.
    unbind H as [[] used1] Hscan; [|discriminate].
    apply check_pubkeys_matched in Hscan
      as (j & u & c & _ & Hj & Hu & _ & _ & ->).
    apply IH in H as [Hlen Hcount].
    rewrite length_insert in Hlen.
    rewrite (used_count_insert used j u Hj Hu) in Hcount. lia.
Qed.

Lemma loop_through_is_accepted (lock_bytes : list byte) (p : policy)
    (message temp used' temp' : list byte) :
  get_flags lock_bytes = Ok p →
  secp256k1_initialize e = 0%Z →
  verify_signatures e lock_bytes p message temp
    (replicate (threshold p) x00) 0 (threshold p) = Ok (used', temp') →
  used' = replicate (threshold p) x01 ∧
  check_require_first_n used' 0 (require_first_n p) = Ok () ∧
  verify_threshold_signatures e lock_bytes p message temp = Exit 0.
Proof.
  intros Hflags Hinit Hloop.
  pose proof (get_flags_inv _ _ Hflags) as (_ & _ & _ & HR & _ & _).
  pose proof (verify_signatures_count _ _ _ _ _ _ _ _ _ Hloop) as [Hlen Hcount].
  rewrite length_replicate in Hlen. rewrite used_count_zero in Hcount.
  assert (Hset : used' = replicate (threshold p) x01).
  { rewrite <- Hlen. apply used_count_full. lia. }
  split; [exact Hset|].
  assert (Hfirst : check_require_first_n used' 0 (require_first_n p) = Ok ()).
  { rewrite Hset. apply check_require_first_n_set. lia. }
  split; [exact Hfirst|].
  unfold verify_threshold_signatures.
  rewrite decide_False by (intros H; apply H, Hinit).
  rewrite Hloop, bind_Ok, Hfirst. reflexivity.
Qed.

(** When every signature has found a key, every entry of [used_signatures]
    is set: the array has [threshold] entries and each of the [threshold]
    matches sets one that was not set.  The loop over the first
    [require_first_n] keys then finds nothing to reject, and with secp256k1
    initialised the call is accepted whatever [require_first_n] is. *)
Theorem first_n_check_never_rejects (lock_bytes : list byte) (p : policy)
    (message temp used' temp' : list byte) :
  get_flags lock_bytes = Ok p →
  secp256k1_initialize e = 0%Z →
  verify_signatures e lock_bytes p message temp
    (replicate (threshold p) x00) 0 (threshold p) = Ok (used', temp') →
  used' = replicate (threshold p) x01 ∧
  check_require_first_n used' 0 (require_first_n p) = Ok () ∧
  verify_threshold_signatures e lock_bytes p message temp = Exit 0.
Proof.
  apply loop_through_is_accepted.
Qed.
End Marks.

Lemma first_n_check_never_rejects_sample :
  check_require_first_n (replicate 2 x01) 0 1 = Ok () ∧
  verify_threshold_signatures Sample.two_of_two Sample.lock_2_of_2
    Sample.flags_2_of_2 Sample.tx_hash
    (temp (pr_buffers Sample.prepared_2_of_2)) = Exit 0.
Proof.
  destruct (first_n_check_never_rejects Sample.two_of_two Sample.lock_2_of_2
              Sample.flags_2_of_2 Sample.tx_hash
              (temp (pr_buffers Sample.prepared_2_of_2))
              (replicate 2 x01) Sample.key_a) as (_ & Hfirst & Hexit).
  - vm_compute. reflexivity.
  - reflexivity.
  - vm_compute. reflexivity.
  - split; [exact Hfirst | exact Hexit].
Defined.

(** ** The statuses of [main] *)

Lemma store_inv (cap : nat) (buf bytes buf' : list byte) :
  store cap buf bytes = Ok buf' →
  length bytes ≤ cap ∧ buf' = bytes ++ drop (length bytes) buf.
Proof. unfold store. case_decide; [|discriminate]. intros [= <-]. done. Qed.

Lemma stops_in_bind {A B} (statuses : list Z) (c : res A) (k : A → res B) :
  stops_in statuses c → (∀ a, c = Ok a → stops_in statuses (k a)) →
  stops_in statuses (c ≫= k).
Proof.
  intros Hc Hk. destruct c as [a|o]; [exact (Hk a eq_refl)|].
  intros z [= ->]. apply Hc. reflexivity.
Qed.

Lemma stops_in_Ok {A} (statuses : list Z) (a : A) : stops_in statuses (Ok a).
Proof. intros z. discriminate. Qed.

Lemma stops_in_Exit {A} (statuses : list Z) (z : Z) :
  z ∈ statuses → stops_in statuses (Stop (A := A) (Exit z)).
Proof. intros Hz z' [= <-]. exact Hz. Qed.

Lemma stops_in_index (statuses : list Z) (buf : list byte) (i : nat) :
  stops_in statuses (index buf i).
Proof. unfold index. intros z. destruct (buf !! i); discriminate. Qed.

Lemma stops_in_load (statuses : list Z) (buf : list byte) (off n : nat) :
  stops_in statuses (load buf off n).
Proof. unfold load. intros z. case_decide; discriminate. Qed.

Lemma stops_in_store (statuses : list Z) (cap : nat) (buf bytes : list byte) :
  stops_in statuses (store cap buf bytes).
Proof. unfold store. intros z. case_decide; discriminate. Qed.

Lemma stops_in_memset (statuses : list Z) (buf : list byte) (off n : nat)
    (b : byte) :
  stops_in statuses (memset buf off b n).
Proof. unfold memset. intros z. case_decide; discriminate. Qed.

(** One step of a proof that a block stops in [statuses]. *)
Ltac stops_step :=
  lazymatch goal with
  | |- stops_in _ (Ok _) => apply stops_in_Ok
  | |- stops_in _ (Stop (Exit _)) =>
      apply stops_in_Exit; refine (bool_decide_unpack _ _); vm_compute; exact I
  | |- stops_in _ (index _ _) => apply stops_in_index
  | |- stops_in _ (load _ _ _) => apply stops_in_load
  | |- stops_in _ (store _ _ _) => apply stops_in_store
  | |- stops_in _ (memset _ _ _ _) => apply stops_in_memset
  | |- stops_in _ (_ ≫= _) => apply stops_in_bind; [|intros ? _]
  | |- stops_in _ (if decide _ then _ else _) => case_decide
  | |- stops_in _ (let '(_, _) := ?c in _) => destruct c
  | |- stops_in _ (match ?c with _ => _ end) => destruct c
  end.

Lemma stops_in_get_flags (lock_bytes : list byte) :
  stops_in prepare_statuses (get_flags lock_bytes).
Proof. unfold get_flags. repeat stops_step. Qed.

Lemma stops_in_check_pubkeys (statuses : list Z)
    (lock_bytes temp used : list byte) (n i : nat) :
  stops_in statuses (check_pubkeys lock_bytes temp used i n).
Proof.
  revert i. induction n as [|n IH]; intros i; cbn [check_pubkeys];
    repeat first [apply IH | stops_step].
Qed.

Lemma stops_in_check_require_first_n (used : list byte) (n i : nat) :
  stops_in verify_statuses (check_require_first_n used i n).
Proof.
  revert i. induction n as [|n IH]; intros i; cbn [check_require_first_n];
    repeat first [apply IH | stops_step].
Qed.

Section Statuses.
Context {blake2b_state signature pubkey : Type}.
Variable e : Env blake2b_state signature pubkey.

Lemma stops_in_load_args : stops_in prepare_statuses (load_args e).
Proof. unfold load_args. repeat stops_step. Qed.

Lemma stops_in_load_first_witness :
  stops_in prepare_statuses (load_first_witness e).
Proof.
  unfold load_first_witness, extract_witness_lock. repeat stops_step.
Qed.

Lemma stops_in_check_multisig_script_hash script args_pos lock_bytes p temp :
  stops_in prepare_statuses
    (check_multisig_script_hash e script args_pos lock_bytes p temp).
Proof. unfold check_multisig_script_hash. repeat stops_step. Qed.

Lemma stops_in_load_tx_hash : stops_in prepare_statuses (load_tx_hash e).
Proof. unfold load_tx_hash. repeat stops_step. Qed.

Lemma stops_in_digest_other_witnesses ws c temp :
  stops_in prepare_statuses (digest_other_witnesses e ws c temp).
Proof.
  revert c temp. induction ws as [|r ws IH]; intros c temp;
    cbn [digest_other_witnesses]; repeat first [apply IH | stops_step].
Qed.

Lemma stops_in_prepare_sign_message tx_hash witness_len lock_pos p b :
  stops_in prepare_statuses
    (prepare_sign_message e tx_hash witness_len lock_pos p b).
Proof.
  unfold prepare_sign_message.
  repeat first [apply stops_in_digest_other_witnesses | stops_step].
Qed.

Lemma stops_in_prepare : stops_in prepare_statuses (prepare e).
Proof.
  unfold prepare.
  repeat first
    [ apply stops_in_load_args | apply stops_in_load_first_witness
    | apply stops_in_get_flags | apply stops_in_check_multisig_script_hash
    | apply stops_in_load_tx_hash | apply stops_in_prepare_sign_message
    | stops_step ].
Qed.

Lemma stops_in_recover_pubkey lock_bytes p message i :
  stops_in signature_statuses (recover_pubkey e lock_bytes p message i).
Proof.
  unfold recover_pubkey, load_signature, recover_from. repeat stops_step.
Qed.

Lemma stops_in_verify_signatures lock_bytes p message temp used n i :
  stops_in signature_statuses
    (verify_signatures e lock_bytes p message temp used i n).
Proof.
  revert temp used i. induction n as [|n IH]; intros temp used i;
    cbn [verify_signatures];
    repeat first
      [ apply IH | apply stops_in_recover_pubkey | apply stops_in_check_pubkeys
      | stops_step ].
Qed.
End Statuses.

Section Accept.
Context {blake2b_state signature pubkey : Type}.
Variable e : Env blake2b_state signature pubkey.

Lemma verify_threshold_signatures_status lock_bytes p message temp z :
  verify_threshold_signatures e lock_bytes p message temp = Exit z →
  (secp256k1_initialize e = 0%Z ∧ z ∈ verify_statuses) ∨
  (z = secp256k1_initialize e ∧ z ≠ 0%Z).
Proof.
  unfold verify_threshold_signatures. case_decide as Hinit.
  { intros [= <-]. right. done. }
  intros H. left. split; [exact Hinit|].
  destruct (verify_signatures e lock_bytes p message temp _ 0 (threshold p))
    as [[used' temp']|o] eqn:Hloop.
  - rewrite bind_Ok in H.
    destruct (check_require_first_n used' 0 (require_first_n p)) as [[]|o] eqn:Hn.
    + injection H as <-. left.
    + simpl in H. subst o. apply (stops_in_check_require_first_n _ _ _ _ Hn).
  - simpl in H. subst o. right.
    apply (stops_in_verify_signatures _ _ _ _ _ _ _ _ _ Hloop).
Qed.

Lemma main_accept_inv :
  main e = Exit 0 →
  ∃ s used' temp',
    prepare e = Ok s ∧ secp256k1_initialize e = 0%Z ∧
    verify_signatures e (lock_bytes (pr_buffers s)) (pr_policy s) (pr_message s)
      (temp (pr_buffers s)) (replicate (threshold (pr_policy s)) x00) 0
      (threshold (pr_policy s)) = Ok (used', temp').
Proof.
  unfold main. destruct (prepare e) as [s|o] eqn:Hprep.
  - intros H. exists s.
    unfold verify_threshold_signatures in H. case_decide as Hinit.
    { injection H as H. done. }
    destruct (verify_signatures _ _ _ _ _ _ 0 _) as [[used' temp']|o] eqn:Hloop.
    + exists used', temp'. done.
    + simpl in H. subst o.
      apply (stops_in_verify_signatures _ _ _ _ _ _ _ _ _) in Hloop.
      exfalso. revert Hloop. refine (bool_decide_eq_false_1 _ _).
      vm_compute. reflexivity.
  - intros ->. apply stops_in_prepare in Hprep.
    exfalso. revert Hprep. refine (bool_decide_eq_false_1 _ _).
    vm_compute. reflexivity.
Qed.

(** The status of a call tells how far it went.  A status returned before
    the signatures are verified is one of the eight of lines 70-182; zero and
    the four statuses of the signature loop are returned only once the
    script, the witness, the flags, the script hash and the message are
    through; and the call also returns, as it is, whatever non-zero value the
    secp256k1 initialisation returns. *)
Theorem main_status (z : Z) :
  main e = Exit z →
  (prepare e = Stop (Exit z) ∧ z ∈ prepare_statuses) ∨
  (∃ s, prepare e = Ok s ∧
        ((secp256k1_initialize e = 0%Z ∧ z ∈ verify_statuses) ∨
         (z = secp256k1_initialize e ∧ z ≠ 0%Z))).
Proof.
  unfold main. destruct (prepare e) as [s|o] eqn:Hprep.
  - intros H. right. exists s. split; [reflexivity|].
    exact (verify_threshold_signatures_status _ _ _ _ _ H).
  - intros ->. left. split; [reflexivity|].
    exact (stops_in_prepare e _ Hprep).
Qed.

(** A call is accepted only if the script argument is the first 20 bytes of
    the hash of the multisig script that the signatures are checked
    against. *)
Theorem accept_binds_script_hash :
  main e = Exit 0 →
  ∃ s script args_pos,
    prepare e = Ok s ∧
    load_args e = Ok (script, args_pos) ∧
    size args_pos = BLAKE160_SIZE ∧
    load script (ptr args_pos) BLAKE160_SIZE
    = Ok (take BLAKE160_SIZE
            (multisig_script_hash e (lock_bytes (pr_buffers s)) (pr_policy s))).
Proof.
  intros (s & _ & _ & Hprep & _ & _)%main_accept_inv.
  pose proof (prepare_inv e s Hprep)
    as (script & args_pos & w & wl & lp & temp0 & tx_hash
        & Hargs & _ & _ & Hflags & Hhash & _ & Hmsg).
  apply prepare_sign_message_inv in Hmsg as (_ & _ & Hl). simpl in Hl.
  exists s, script, args_pos. rewrite Hl.
  split; [exact Hprep|]. split; [exact Hargs|]. split.
  - unfold load_args in Hargs.
    destruct (syscall (host_script e) MAX_SCRIPT_SIZE) as [[r len] stored].
    unbind Hargs as sc.
    repeat case_decide; try discriminate. injection Hargs as _ <-. done.
  - apply get_flags_inv in Hflags as (_ & _ & _ & _ & _ & Hlen).
    unfold check_multisig_script_hash in Hhash.
    unbind Hhash as ms Hms. apply load_inv in Hms as [_ ->].
    rewrite drop_0 in Hhash. fold (multisig_script_hash e (extracted_lock w lp) (pr_policy s)) in Hhash.
    unbind Hhash as t Ht. apply store_inv in Ht as [_ ->].
    rewrite drop_nil, app_nil_r in Hhash.
    unbind Hhash as a Ha. unbind Hhash as h Hh.
    case_decide as Heq; [discriminate|]. subst a.
    rewrite Ha. apply load_inv in Hh as [Hle ->].
    rewrite drop_0, take_take. reflexivity.
Qed.
End Accept.

(** ** Which signatures a call is accepted for *)

Lemma first_indices (js : list nat) (m : nat) :
  NoDup js → length js = m → (∀ j, j ∈ js → j < m) → js ≡ₚ seq 0 m.
Proof.
  intros Hnd Hlen Hlt. apply submseteq_length_Permutation.
  - apply NoDup_submseteq; [exact Hnd|].
    intros j Hj. apply elem_of_seq. specialize (Hlt j Hj). lia.
  - rewrite length_seq. lia.
Qed.

Section Signers.
Context {blake2b_state signature pubkey : Type}.
Variable e : Env blake2b_state signature pubkey.
Hypothesis serialized : serialize_compressed e.

Lemma recover_pubkey_length lock_bytes p message i output :
  recover_pubkey e lock_bytes p message i = Ok output →
  length output = PUBKEY_SIZE.
Proof using serialized.
  unfold recover_pubkey, recover_from. intros H.
  unbind H as [input64 recid].
  destruct (parse_compact e input64 recid) as [sig|]; [|discriminate].
  destruct (recover e sig message) as [k|]; [|discriminate].
  destruct (serialize e k) as [out|] eqn:Hout; [|discriminate].
  injection H as <-. apply serialized in Hout.
  rewrite length_take. lia.
Qed.

(** The signatures of a loop that goes through recover to the keys at
    pairwise different indices, none of which was set before. *)
Lemma verify_signatures_indices lock_bytes p message n i temp used used' temp' :
  verify_signatures e lock_bytes p message temp used i n = Ok (used', temp') →
  ∃ js,
    length js = n ∧ NoDup js ∧
    (∀ j, j ∈ js → j < length used ∧ used !! j ≠ Some x01) ∧
    (∀ k j, js !! k = Some j →
            recover_pubkey e lock_bytes p message (i + k)
            = Ok (pubkey_at lock_bytes j)).
Proof using serialized.
  revert i temp used. induction n as [|n IH]; intros i temp used H.
  { exists []. split; [done|]. split; [constructor|].
    split; [intros j Hj; inversion Hj | intros k j Hk; discriminate]. }
  cbn [verify_signatures] in H.
  unbind H as output Hrec.
  pose proof (recover_pubkey_length _ _ _ _ _ Hrec) as Hlen.
  unbind H as temp1 Htemp. apply store_inv in Htemp as [_ ->].
  unbind H as [[] used1] Hscan; [|discriminate].
  apply check_pubkeys_matched in Hscan
    as (j & u & c & _ & Hj & Hu & Hpk & Hc & ->).
  apply load_inv in Hpk as [_ Hpk]. fold (pubkey_at lock_bytes j) in Hpk.
  apply load_inv in Hc as [_ Hc].
  rewrite drop_0, take_app_length' in Hc by (symmetry; exact Hlen).
  apply IH in H as (js & Hn & Hnd & Hfree & Hkeys).
  exists (j :: js). split; [simpl; lia|].
  assert (Hjlt : j < length used) by (apply lookup_lt_is_Some; eauto).
  split; [|split].
  - apply NoDup_cons. split; [|exact Hnd].
    intros Hin. apply Hfree in Hin as [_ Hin]. apply Hin.
    apply list_lookup_insert_eq. exact Hjlt.
  - intros j' [->|Hin]%elem_of_cons.
    + split; [exact Hjlt|]. rewrite Hj. intros [= ->]. done.
    + apply Hfree in Hin as [Hlt Hin]. rewrite length_insert in Hlt.
      split; [exact Hlt|]. intros Hset. apply Hin.
      destruct (decide (j = j')) as [->|Hne].
      * apply list_lookup_insert_eq. exact Hjlt.
      * rewrite list_lookup_insert_ne by done. exact Hset.
  - intros [|k] j' Hk.
    + injection Hk as <-. rewrite Nat.add_0_r, Hrec. congruence.
    + replace (i + S k) with (S i + k) by lia. apply Hkeys. exact Hk.
Qed.

(** A call is accepted only if its signatures recover, one each and in some
    order, to the keys listed at the indices below [threshold]: the keys
    listed from [threshold] on never count. *)
Theorem accept_only_first_threshold_keys :
  main e = Exit 0 →
  ∃ s js,
    prepare e = Ok s ∧
    js ≡ₚ seq 0 (threshold (pr_policy s)) ∧
    ∀ i j, js !! i = Some j →
           recover_pubkey e (lock_bytes (pr_buffers s)) (pr_policy s)
             (pr_message s) i
           = Ok (pubkey_at (lock_bytes (pr_buffers s)) j).
Proof using serialized.
  intros (s & used' & temp' & Hprep & _ & Hloop)%main_accept_inv.
  apply verify_signatures_indices in Hloop as (js & Hn & Hnd & Hfree & Hkeys).
  exists s, js. split; [exact Hprep|]. split; [|exact Hkeys].
  apply first_indices; [exact Hnd | exact Hn |].
  intros j [Hj _]%Hfree. rewrite length_replicate in Hj. exact Hj.
Qed.
End Signers.

Lemma check_pubkeys_finds (lock_bytes temp used c : list byte) (j0 : nat)
    (u : byte) (n i : nat) :
  load temp 0 PUBKEY_SIZE = Ok c →
  i ≤ j0 < i + n →
  used !! j0 = Some u → u ≠ x01 →
  load lock_bytes (FLAGS_SIZE + j0 * PUBKEY_SIZE) PUBKEY_SIZE = Ok c →
  (∀ j, i ≤ j < j0 →
        ∃ c', load lock_bytes (FLAGS_SIZE + j * PUBKEY_SIZE) PUBKEY_SIZE = Ok c' ∧
              c' ≠ c) →
  check_pubkeys lock_bytes temp used i n = Ok (true, <[j0 := x01]> used).
Proof.
  intros Htemp Hj0 Hu Hne Hkey Hbefore. revert i Hj0 Hbefore.
  induction n as [|n IH]; intros i Hj0 Hbefore; [lia|].
  cbn [check_pubkeys].
  destruct (decide (i = j0)) as [->|Hi].
  - unfold index. rewrite Hu, bind_Ok. rewrite decide_False by exact Hne.
    rewrite Hkey, bind_Ok, Htemp, bind_Ok.
    rewrite decide_False by (intros H; apply H; reflexivity). reflexivity.
  - assert (Hnext : check_pubkeys lock_bytes temp used (S i) n
                    = Ok (true, <[j0 := x01]> used)).
    { apply IH; [lia|]. intros j Hj. apply Hbefore. lia. }
    destruct (lookup_lt_is_Some_2 used i) as [u' Hu'].
    { apply lookup_lt_Some in Hu. lia. }
    unfold index. rewrite Hu', bind_Ok.
    destruct (decide (u' = x01)); [exact Hnext|].
    destruct (Hbefore i ltac:(lia)) as (c' & -> & Hc').
    rewrite bind_Ok, Htemp, bind_Ok. rewrite decide_True by exact Hc'.
    exact Hnext.
Qed.

Section Signed.
Context {blake2b_state signature pubkey : Type}.
Variable e : Env blake2b_state signature pubkey.
Variables (lock_bytes : list byte) (p : policy) (message : list byte).
Hypothesis flags : get_flags lock_bytes = Ok p.
Hypothesis distinct : NoDup (pubkeys lock_bytes (threshold p)).

Lemma verify_signatures_accepts (rest : list nat) (i : nat) (temp used : list byte) :
  NoDup rest →
  (∀ j, j ∈ rest → j < threshold p ∧ used !! j = Some x00) →
  (∀ k j, rest !! k = Some j →
          recover_pubkey e lock_bytes p message (i + k)
          = Ok (pubkey_at lock_bytes j)) →
  ∃ used' temp',
    verify_signatures e lock_bytes p message temp used i (length rest)
    = Ok (used', temp').
Proof using flags distinct.
  pose proof (get_flags_inv _ _ flags) as (_ & _ & HMN & _ & _ & Hlock).
  assert (Hread : ∀ j, j < pubkeys_cnt p →
            load lock_bytes (FLAGS_SIZE + j * PUBKEY_SIZE) PUBKEY_SIZE
            = Ok (pubkey_at lock_bytes j) ∧
            length (pubkey_at lock_bytes j) = PUBKEY_SIZE).
  { intros j Hj. unfold multisig_script_len, FLAGS_SIZE, PUBKEY_SIZE in *.
    split; [apply load_le; lia|].
    unfold pubkey_at, FLAGS_SIZE, PUBKEY_SIZE.
    rewrite length_take, length_drop. lia. }
  revert i temp used.
  induction rest as [|j0 rest IH]; intros i temp used Hnd Hfree Hrec;
    cbn [length verify_signatures]; [eauto|].
  apply NoDup_cons in Hnd as [Hj0 Hnd].
  destruct (Hfree j0 ltac:(left)) as [Hlt Hu].
  destruct (Hread j0 ltac:(lia)) as [Hkey Hlen].
  pose proof (Hrec 0 j0 eq_refl) as Hrecover. rewrite Nat.add_0_r in Hrecover.
  rewrite Hrecover, bind_Ok.
  rewrite store_le by (rewrite Hlen; unfold PUBKEY_SIZE, TEMP_SIZE; lia).
  rewrite bind_Ok.
  rewrite (check_pubkeys_finds lock_bytes _ used (pubkey_at lock_bytes j0)
             j0 x00 (pubkeys_cnt p) 0).
  - rewrite bind_Ok. apply IH; [exact Hnd| |].
    + intros j Hj. destruct (Hfree j ltac:(right; exact Hj)) as [Hjlt Hjfree].
      split; [exact Hjlt|].
      rewrite list_lookup_insert_ne by (intros ->; done). exact Hjfree.
    + intros k j Hk. replace (S i + k) with (i + S k) by lia.
      apply Hrec. exact Hk.
  - rewrite load_le by (rewrite length_app; lia).
    rewrite drop_0, take_app_length' by (symmetry; exact Hlen). reflexivity.
  - lia.
  - exact Hu.
  - done.
  - exact Hkey.
  - intros j Hj. exists (pubkey_at lock_bytes j).
    split; [apply Hread; lia|].
    intros Heq.
    assert (Hjj : j = j0); [|lia].
    apply (NoDup_lookup _ j j0 (pubkey_at lock_bytes j0) distinct).
    + unfold pubkeys. rewrite list_lookup_fmap, lookup_seq_lt by lia.
      simpl. rewrite Heq. reflexivity.
    + unfold pubkeys. rewrite list_lookup_fmap, lookup_seq_lt by lia.
      reflexivity.
Qed.
End Signed.

Section Signed_call.
Context {blake2b_state signature pubkey : Type}.
Variable e : Env blake2b_state signature pubkey.

(** With the keys listed at the indices below [threshold] pairwise
    different, a call whose signatures recover to exactly these keys, in any
    order, is accepted, whatever the keys listed after them and whatever
    [require_first_n] is. *)
Theorem first_threshold_keys_accepted (s : prepared) (js : list nat) :
  prepare e = Ok s →
  secp256k1_initialize e = 0%Z →
  NoDup (pubkeys (lock_bytes (pr_buffers s)) (threshold (pr_policy s))) →
  js ≡ₚ seq 0 (threshold (pr_policy s)) →
  (∀ i j, js !! i = Some j →
          recover_pubkey e (lock_bytes (pr_buffers s)) (pr_policy s)
            (pr_message s) i
          = Ok (pubkey_at (lock_bytes (pr_buffers s)) j)) →
  main e = Exit 0.
Proof.
  intros Hprep Hinit Hdistinct Hperm Hrec.
  pose proof (prepare_flags e s Hprep) as Hflags.
  rewrite (main_prepared e s Hprep).
  destruct (verify_signatures_accepts e _ _ (pr_message s) Hflags Hdistinct js 0
              (temp (pr_buffers s))
              (replicate (threshold (pr_policy s)) x00))
    as (used' & temp' & Hloop).
  - rewrite Hperm. apply NoDup_seq.
  - intros j Hj. rewrite Hperm in Hj. apply elem_of_seq in Hj.
    split; [lia|]. apply lookup_replicate_2. lia.
  - exact Hrec.
  - rewrite (Permutation_length Hperm), length_seq in Hloop.
    apply (loop_through_is_accepted e _ _ _ _ _ _ Hflags Hinit Hloop).
Qed.
End Signed_call.

Lemma padded_serialize_compressed :
  serialize_compressed Sample.two_of_two_padded.
Proof.
  intros k output [= <-].
  rewrite length_take, length_app. cbn [length]. unfold PUBKEY_SIZE. lia.
Qed.

Lemma accept_only_first_threshold_keys_sample :
  ∃ s js,
    prepare Sample.two_of_two_padded = Ok s ∧
    js ≡ₚ seq 0 (threshold (pr_policy s)) ∧
    ∀ i j, js !! i = Some j →
           recover_pubkey Sample.two_of_two_padded (lock_bytes (pr_buffers s))
             (pr_policy s) (pr_message s) i
           = Ok (pubkey_at (lock_bytes (pr_buffers s)) j).
Proof.
  apply (accept_only_first_threshold_keys Sample.two_of_two_padded
           padded_serialize_compressed).
  vm_compute. reflexivity.
Defined.

Lemma first_threshold_keys_accepted_sample : main Sample.two_of_two = Exit 0.
Proof.
  apply (first_threshold_keys_accepted Sample.two_of_two Sample.prepared_2_of_2
           [1; 0] prepare_two_of_two).
  - reflexivity.
  - vm_compute. repeat constructor; intros H; inversion H; subst;
      try discriminate; match goal with H' : _ ∈ [] |- _ => inversion H' end.
  - apply perm_swap.
  - intros [|[|i]] j Hj; try discriminate;
      injection Hj as <-; vm_compute; reflexivity.
Defined.

Lemma main_status_sample :
  (prepare Sample.two_of_two = Stop (Exit 0) ∧ 0%Z ∈ prepare_statuses) ∨
  (∃ s, prepare Sample.two_of_two = Ok s ∧
        ((secp256k1_initialize Sample.two_of_two = 0%Z ∧ 0%Z ∈ verify_statuses) ∨
         (0%Z = secp256k1_initialize Sample.two_of_two ∧ 0%Z ≠ 0%Z))).
Proof.
  apply (main_status Sample.two_of_two 0). vm_compute. reflexivity.
Defined.

Lemma accept_binds_script_hash_sample :
  ∃ s script args_pos,
    prepare Sample.two_of_two = Ok s ∧
    load_args Sample.two_of_two = Ok (script, args_pos) ∧
    size args_pos = BLAKE160_SIZE ∧
    load script (ptr args_pos) BLAKE160_SIZE
    = Ok (take BLAKE160_SIZE
            (multisig_script_hash Sample.two_of_two (lock_bytes (pr_buffers s))
               (pr_policy s))).
Proof.
  apply (accept_binds_script_hash Sample.two_of_two). vm_compute. reflexivity.
Defined.

(** ** The message and the signatures *)

Section Message.
Context {blake2b_state signature pubkey : Type}.
Variable e : Env blake2b_state signature pubkey.

(** The message does not depend on the bytes of the signature area: two
    witness buffers of the same length that agree before and after that
    area give the same message, and the same witness buffer once it is
    set to zero. *)
Theorem message_ignores_signatures (tx_hash : list byte) (witness_len : nat)
    (lock_pos : mol_pos) (p : policy) (b b' : buffers) (message : list byte)
    (r : buffers) :
  let off := ptr lock_pos + multisig_script_len p in
  temp b' = temp b →
  length (witness b') = length (witness b) →
  take off (witness b') = take off (witness b) →
  drop (off + signatures_len p) (witness b')
  = drop (off + signatures_len p) (witness b) →
  prepare_sign_message e tx_hash witness_len lock_pos p b = Ok (message, r) →
  ∃ r', prepare_sign_message e tx_hash witness_len lock_pos p b' = Ok (message, r') ∧
        witness r' = witness r ∧ temp r' = temp r.
Proof.
  intros off Htemp Hlen Htake Hdrop H.
  assert (Hmemset : memset (witness b') off x00 (signatures_len p)
                    = memset (witness b) off x00 (signatures_len p)).
  { unfold memset. rewrite Hlen, Htake, Hdrop. reflexivity. }
  unfold prepare_sign_message in *. fold off in H |- *.
  rewrite Hmemset, Htemp.
  unbind H as hash Hhash. rewrite Hhash, bind_Ok.
  unbind H as w Hw. rewrite Hw, bind_Ok.
  unbind H as bytes Hbytes. rewrite Hbytes, bind_Ok.
  unbind H as [c t] Hdigest. rewrite Hdigest, bind_Ok.
  injection H as <- <-. eexists. split; [reflexivity|]. done.
Qed.
End Message.

Lemma message_ignores_signatures_sample :
  ∃ r', prepare_sign_message Sample.two_of_two Sample.tx_hash
          (length Sample.first_witness) Sample.lock_pos Sample.flags_2_of_2
          Sample.buffers_2_of_2_unsigned
        = Ok (pr_message Sample.prepared_2_of_2, r') ∧
        witness r' = witness (pr_buffers Sample.prepared_2_of_2) ∧
        temp r' = temp (pr_buffers Sample.prepared_2_of_2).
Proof.
  apply (message_ignores_signatures Sample.two_of_two Sample.tx_hash
           (length Sample.first_witness) Sample.lock_pos Sample.flags_2_of_2
           Sample.buffers_2_of_2 Sample.buffers_2_of_2_unsigned);
    vm_compute; reflexivity.
Defined.

(** ** Where the program stays within defined behaviour *)

Lemma defined_bind {A B} (c : res A) (k : A → res B) :
  defined c → (∀ a, c = Ok a → defined (k a)) → defined (c ≫= k).
Proof.
  unfold defined. intros Hc Hk. destruct c as [a|o]; [exact (Hk a eq_refl)|].
  intros [= ->]. apply Hc. reflexivity.
Qed.

Lemma defined_Ok {A} (a : A) : defined (Ok a).
Proof. discriminate. Qed.

Lemma defined_Exit {A} (z : Z) : defined (Stop (A := A) (Exit z)).
Proof. discriminate. Qed.

Lemma defined_load (buf : list byte) (off n : nat) :
  off + n ≤ length buf → defined (load buf off n).
Proof. intros H. rewrite load_le by exact H. apply defined_Ok. Qed.

Lemma syscall_stored (r : load_res) (len : nat) :
  length (syscall r len).2 ≤ len.
Proof.
  unfold syscall. destruct (ret r); simpl; rewrite ?length_take; lia.
Qed.

Lemma syscall_success (r : load_res) (len : nat) (c : syscall_ret) (n : nat)
    (stored : list byte) :
  syscall r len = (c, n, stored) → c = CKB_SUCCESS →
  ret r = CKB_SUCCESS ∧ n = len_out r ∧ stored = take len (data r).
Proof.
  unfold syscall. destruct (ret r); intros [= <- <- <-]; done.
Qed.

Lemma get_flags_defined (lock_bytes : list byte) :
  FLAGS_SIZE ≤ length lock_bytes → defined (get_flags lock_bytes).
Proof.
  unfold FLAGS_SIZE. intros Hlen. unfold get_flags.
  rewrite !index_lt by lia. rewrite !bind_Ok.
  repeat case_decide; first [apply defined_Ok | apply defined_Exit].
Qed.

Section Defined.
Context {blake2b_state signature pubkey : Type}.
Variable e : Env blake2b_state signature pubkey.
Hypothesis behaved : well_behaved e.

Lemma load_args_inside (script : list byte) (args_pos : mol_pos) :
  load_args e = Ok (script, args_pos) →
  ptr args_pos + BLAKE160_SIZE ≤ length script.
Proof using behaved.
  destruct behaved as (Hscript & _ & _ & _ & [Hcut Hbytes] & _).
  unfold load_args.
  destruct (syscall (host_script e) MAX_SCRIPT_SIZE) as [[c len] stored] eqn:Hsys.
  intros H. unbind H as sc Hsc.
  case_decide as Hc; [discriminate|].
  destruct (syscall_success _ _ _ _ _ Hsys Hc) as (Hret & -> & ->).
  destruct (Hscript Hret) as [Hlen Hcap].
  apply store_inv in Hsc as [_ ->].
  rewrite drop_nil, app_nil_r, take_ge in * by lia.
  case_decide as H1; [discriminate|].
  case_decide as H2; [discriminate|].
  case_decide as H3; [discriminate|].
  injection H as <- <-.
  apply Hcut in H1 as [_ H1]. apply Hbytes in H2 as [H2a H2b].
  simpl in H1. rewrite <- H3. lia.
Qed.

Lemma load_first_witness_inside (w : list byte) (witness_len : nat)
    (lock_pos : mol_pos) :
  load_first_witness e = Ok (w, witness_len, lock_pos) →
  witness_len = length w ∧ ptr lock_pos + size lock_pos ≤ length w ∧
  FLAGS_SIZE ≤ size lock_pos.
Proof using behaved.
  destruct behaved as (_ & Hfirst & _ & _ & [Hcut Hbytes] & _).
  unfold load_first_witness, ckb_load_witness.
  destruct (host_witnesses e) as [|r ws].
  { simpl. intros H. discriminate. }
  apply Forall_cons_1 in Hfirst as [Hfirst _].
  destruct (syscall r MAX_WITNESS_SIZE) as [[c len] stored] eqn:Hsys.
  intros H. unbind H as sc Hsc.
  case_decide as Hc; [discriminate|].
  destruct (syscall_success _ _ _ _ _ Hsys Hc) as (Hret & -> & ->).
  destruct (Hfirst Hret) as [Hlen Hcap].
  apply store_inv in Hsc as [_ ->].
  rewrite drop_nil, app_nil_r, take_ge in * by lia.
  unbind H as res Hres.
  unfold extract_witness_lock in Hres.
  set (lock_res := mol_cut e (data r) {| ptr := 0; size := len_out r |}
                     MOL_WitnessArgs_lock) in *.
  destruct (decide (code lock_res ≠ 0%Z)) as [|H1]; [discriminate|].
  destruct (decide (code (mol_cut_bytes e (data r) (pos lock_res)) ≠ 0%Z))
    as [|H2]; [discriminate|].
  injection Hres as <-.
  case_decide as H3; [discriminate|].
  injection H as <- <- <-.
  apply dec_stable in H1, H2. subst lock_res.
  apply Hcut in H1 as [_ H1]. apply Hbytes in H2 as [H2a H2b].
  simpl in H1. split; [exact Hlen|]. split; lia.
Qed.

Lemma load_args_defined : defined (load_args e).
Proof.
  unfold load_args.
  pose proof (syscall_stored (host_script e) MAX_SCRIPT_SIZE) as Hst.
  destruct (syscall (host_script e) MAX_SCRIPT_SIZE) as [[c len] stored].
  simpl in Hst. rewrite store_le by exact Hst. rewrite bind_Ok.
  repeat case_decide; first [apply defined_Ok | apply defined_Exit].
Qed.

Lemma load_first_witness_defined : defined (load_first_witness e).
Proof.
  unfold load_first_witness.
  assert (Hst : length (ckb_load_witness (host_witnesses e) MAX_WITNESS_SIZE).2
                ≤ MAX_WITNESS_SIZE).
  { unfold ckb_load_witness. destruct (host_witnesses e); simpl; [lia|].
    apply syscall_stored. }
  destruct (ckb_load_witness (host_witnesses e) MAX_WITNESS_SIZE)
    as [[c len] stored].
  simpl in Hst. rewrite store_le by exact Hst. rewrite bind_Ok.
  unfold extract_witness_lock.
  repeat case_decide; rewrite ?bind_Ok; repeat case_decide;
    first [apply defined_Ok | apply defined_Exit].
Qed.

Lemma check_multisig_script_hash_defined script args_pos lock_bytes p temp :
  get_flags lock_bytes = Ok p →
  ptr args_pos + BLAKE160_SIZE ≤ length script →
  defined (check_multisig_script_hash e script args_pos lock_bytes p temp).
Proof using behaved.
  destruct behaved as (_ & _ & _ & _ & _ & Hfinal & _).
  intros Hflags Hargs.
  apply get_flags_inv in Hflags as (_ & _ & _ & _ & _ & Hlen).
  unfold check_multisig_script_hash.
  rewrite (load_le lock_bytes) by lia. rewrite bind_Ok.
  rewrite take_ge by (rewrite Hfinal; lia).
  rewrite store_le by (rewrite Hfinal; unfold BLAKE2B_BLOCK_SIZE, TEMP_SIZE; lia).
  rewrite bind_Ok.
  rewrite (load_le script) by exact Hargs. rewrite bind_Ok.
  rewrite load_le
    by (rewrite length_app, Hfinal; unfold BLAKE160_SIZE, BLAKE2B_BLOCK_SIZE; lia).
  rewrite bind_Ok.
  case_decide; first [apply defined_Ok | apply defined_Exit].
Qed.

Lemma load_tx_hash_defined :
  defined (load_tx_hash e) ∧
  ∀ tx_hash, load_tx_hash e = Ok tx_hash → length tx_hash = BLAKE2B_BLOCK_SIZE.
Proof using behaved.
  destruct behaved as (_ & _ & _ & Htx & _).
  unfold load_tx_hash.
  pose proof (syscall_stored (host_tx_hash e) BLAKE2B_BLOCK_SIZE) as Hst.
  destruct (syscall (host_tx_hash e) BLAKE2B_BLOCK_SIZE) as [[c len] stored] eqn:Hsys.
  simpl in Hst. rewrite store_le by exact Hst. rewrite bind_Ok.
  case_decide as Hc; [split; [apply defined_Exit | discriminate]|].
  split; [apply defined_Ok|]. intros tx [= <-].
  destruct (syscall_success _ _ _ _ _ Hsys Hc) as (Hret & _ & ->).
  specialize (Htx Hret).
  rewrite drop_nil, app_nil_r, length_take. lia.
Qed.

Lemma digest_other_witnesses_defined (ws : list load_res) (c : blake2b_state)
    (temp : list byte) :
  Forall (honest TEMP_SIZE) ws → defined (digest_other_witnesses e ws c temp).
Proof.
  intros Hws. revert c temp.
  induction Hws as [|r ws Hr _ IH]; intros c temp; cbn [digest_other_witnesses].
  { apply defined_Ok. }
  unfold syscall. destruct (ret r) eqn:Hret.
  - destruct (Hr Hret) as [Hlen Hfit].
    rewrite take_ge by (unfold MAX_WITNESS_SIZE, TEMP_SIZE in *; lia).
    rewrite store_le by exact Hfit. rewrite bind_Ok.
    rewrite decide_False by done.
    rewrite decide_False by (intros H; apply H; reflexivity).
    rewrite Hlen, load_le by (rewrite length_app; lia).
    rewrite bind_Ok. apply IH.
  - rewrite store_le by (simpl; lia). rewrite bind_Ok.
    rewrite decide_True by done. apply defined_Ok.
  - rewrite store_le by (simpl; lia). rewrite bind_Ok.
    rewrite decide_False by done. rewrite decide_True by done.
    apply defined_Exit.
Qed.

Lemma prepare_sign_message_defined tx_hash witness_len lock_pos p b :
  length tx_hash = BLAKE2B_BLOCK_SIZE →
  ptr lock_pos + multisig_script_len p + signatures_len p ≤ length (witness b) →
  witness_len ≤ length (witness b) →
  defined (prepare_sign_message e tx_hash witness_len lock_pos p b).
Proof using behaved.
  destruct behaved as (_ & _ & Hothers & _).
  intros Htx Hsig Hlen. unfold prepare_sign_message.
  rewrite load_le by lia. rewrite bind_Ok.
  unfold memset. rewrite decide_True by lia. rewrite bind_Ok.
  fold (zeroed (witness b) lock_pos p).
  assert (Hz : length (zeroed (witness b) lock_pos p) = length (witness b)).
  { unfold zeroed. rewrite !length_app, length_take, length_replicate, length_drop.
    lia. }
  rewrite load_le by lia. rewrite bind_Ok.
  apply defined_bind.
  - apply digest_other_witnesses_defined. exact Hothers.
  - intros [c t] _. apply defined_Ok.
Qed.

Lemma prepare_defined : defined (prepare e).
Proof using behaved.
  unfold prepare.
  apply defined_bind; [apply load_args_defined|].
  intros [script args_pos] Hargs%load_args_inside.
  apply defined_bind; [apply load_first_witness_defined|].
  intros [[w wl] lp] (-> & Hin & Hsize)%load_first_witness_inside.
  apply defined_bind; [apply defined_load; exact Hin|].
  intros lock [_ ->]%load_inv.
  apply defined_bind.
  { apply get_flags_defined. rewrite length_take, length_drop. lia. }
  intros p Hflags.
  apply defined_bind.
  { apply check_multisig_script_hash_defined; assumption. }
  intros temp0 _.
  destruct load_tx_hash_defined as [Htxd Htxl].
  apply defined_bind; [exact Htxd|].
  intros tx_hash Htx%Htxl.
  apply defined_bind.
  - apply prepare_sign_message_defined; simpl; [exact Htx | | lia].
    apply get_flags_inv in Hflags as (_ & _ & _ & _ & _ & Hlen).
    rewrite length_take, length_drop in Hlen. lia.
  - intros [m b] _. apply defined_Ok.
Qed.

Lemma recover_pubkey_defined lock_bytes p message i :
  get_flags lock_bytes = Ok p → i < threshold p →
  defined (recover_pubkey e lock_bytes p message i).
Proof.
  intros Hflags Hi.
  pose proof (get_flags_inv _ _ Hflags) as (_ & _ & _ & _ & _ & Hlen).
  destruct (load_signature_slice lock_bytes p i) as (input64 & recid & Hload & _).
  { unfold signatures_len, SIGNATURE_SIZE in *. lia. }
  unfold recover_pubkey, recover_from. rewrite Hload, bind_Ok.
  destruct (parse_compact e input64 recid) as [sig|]; [|apply defined_Exit].
  destruct (recover e sig message) as [k|]; [|apply defined_Exit].
  destruct (serialize e k); [apply defined_Ok | apply defined_Exit].
Qed.

Lemma verify_signatures_defined lock_bytes p message n i temp used :
  get_flags lock_bytes = Ok p →
  length used = pubkeys_cnt p → i + n ≤ threshold p →
  defined (verify_signatures e lock_bytes p message temp used i n) ∧
  ∀ used' temp',
    verify_signatures e lock_bytes p message temp used i n = Ok (used', temp') →
    length used' = length used.
Proof using behaved.
  destruct behaved as (_ & _ & _ & _ & _ & _ & Hser).
  intros Hflags. revert i temp used.
  induction n as [|n IH]; intros i temp used Hused Hi; cbn [verify_signatures].
  { split; [apply defined_Ok|]. intros used' temp' [= <- _]. reflexivity. }
  pose proof (get_flags_inv _ _ Hflags) as (_ & _ & _ & _ & _ & Hlock).
  pose proof (recover_pubkey_defined lock_bytes p message i Hflags ltac:(lia))
    as Hrec.
  destruct (recover_pubkey e lock_bytes p message i) as [output|o] eqn:Hout.
  2:{ split; [intros [= ->]; apply Hrec; reflexivity | discriminate]. }
  rewrite bind_Ok.
  pose proof (recover_pubkey_length e Hser _ _ _ _ _ Hout) as Hlen.
  rewrite store_le by (rewrite Hlen; unfold PUBKEY_SIZE, TEMP_SIZE; lia).
  rewrite bind_Ok.
  pose proof (check_pubkeys_select lock_bytes (output ++ drop (length output) temp)
                output (pubkeys_cnt p)) as Hscan.
  assert (Hload : load (output ++ drop (length output) temp) 0 PUBKEY_SIZE
                  = Ok output).
  { rewrite load_le by (rewrite length_app; lia).
    rewrite drop_0, take_app_length' by (symmetry; exact Hlen). reflexivity. }
  assert (Hkeys : FLAGS_SIZE + pubkeys_cnt p * PUBKEY_SIZE ≤ length lock_bytes).
  { unfold multisig_script_len in Hlock. lia. }
  specialize (Hscan Hload Hkeys (pubkeys_cnt p) 0 used eq_refl Hused).
  destruct (spec_select _ _ output) as [ms|].
  - destruct Hscan as (used1 & -> & Hlen1 & _). rewrite bind_Ok.
    destruct (IH (S i) (output ++ drop (length output) temp) used1 Hlen1
                ltac:(lia)) as [Hd Hl].
    split; [exact Hd|]. intros used' temp' H. rewrite (Hl _ _ H). lia.
  - rewrite Hscan, bind_Ok. split; [apply defined_Exit | discriminate].
Qed.

(** With a host that reports honest lengths, further witnesses that fit
    [temp], a reader that stays inside the blob it is given, a hash of the
    length asked for and public keys that serialise to 33 bytes, a call
    whose policy has as many keys as signatures required never reads or
    writes outside a buffer: it returns a status. *)
Theorem main_defined :
  (∀ s, prepare e = Ok s → pubkeys_cnt (pr_policy s) = threshold (pr_policy s)) →
  ∃ z, main e = Exit z.
Proof using behaved.
  intros Hbounds.
  assert (Hmain : main e ≠ Undefined);
    [|destruct (main e) as [z|]; [eauto | done]].
  pose proof prepare_defined as Hprep. unfold main.
  destruct (prepare e) as [s|o] eqn:Hs.
  2:{ intros ->. apply Hprep. reflexivity. }
  specialize (Hbounds s eq_refl).
  pose proof (prepare_flags e s Hs) as Hflags.
  pose proof (get_flags_inv _ _ Hflags) as (_ & _ & _ & HR & _ & _).
  unfold verify_threshold_signatures.
  case_decide; [discriminate|].
  destruct (verify_signatures_defined (lock_bytes (pr_buffers s)) (pr_policy s)
              (pr_message s) (threshold (pr_policy s)) 0 (temp (pr_buffers s))
              (replicate (threshold (pr_policy s)) x00) Hflags)
    as [Hd Hl].
  { rewrite length_replicate. symmetry. exact Hbounds. }
  { lia. }
  destruct (verify_signatures _ _ _ _ _ _ 0 _) as [[used' temp']|o] eqn:Hloop.
  - rewrite bind_Ok. specialize (Hl _ _ eq_refl).
    rewrite length_replicate in Hl.
    rewrite check_require_first_n_forallb by lia.
    destruct (forallb _ _); discriminate.
  - simpl. intros ->. apply Hd. reflexivity.
Qed.
End Defined.

Lemma cut_in_bounds : reader_in_bounds Sample.two_of_two_padded.
Proof.
  split.
  - intros buf p f. cbn [mol_cut Sample.two_of_two_padded]. unfold Sample.cut.
    destruct (buf !! ptr p) as [b|]; [|discriminate].
    case_decide; [|discriminate].
    intros _. unfold inside. simpl. lia.
  - intros buf p _. unfold inside. simpl. lia.
Qed.

Lemma two_of_two_padded_well_behaved : well_behaved Sample.two_of_two_padded.
Proof.
  split; [|split; [|split; [|split; [|split; [|split]]]]].
  - intros _. split; [reflexivity|]. apply Nat.leb_le. vm_compute. reflexivity.
  - apply (Forall_cons_2 _ _ []); [|apply Forall_nil_2].
    intros _. split; [reflexivity|]. apply Nat.leb_le. vm_compute. reflexivity.
  - apply (Forall_cons_2 _ _ []); [|apply Forall_nil_2].
    intros _. split; [reflexivity|]. apply Nat.leb_le. vm_compute. reflexivity.
  - intros _. apply Nat.leb_le. vm_compute. reflexivity.
  - exact cut_in_bounds.
  - intros c n. cbn [blake2b_final Sample.two_of_two_padded]. unfold Sample.final.
    rewrite length_take, length_app, length_replicate. lia.
  - exact padded_serialize_compressed.
Qed.

Lemma prepare_two_of_two_padded :
  prepare Sample.two_of_two_padded = Ok Sample.prepared_2_of_2.
Proof. vm_compute. reflexivity. Qed.

Lemma main_defined_sample : ∃ z, main Sample.two_of_two_padded = Exit z.
Proof.
  apply (main_defined Sample.two_of_two_padded two_of_two_padded_well_behaved).
  intros s. rewrite prepare_two_of_two_padded. intros [= <-]. reflexivity.
Defined.

(** ** A signature by a key past the first [threshold] keys *)

Lemma check_pubkeys_overrun (lock_bytes temp used candidate : list byte)
    (n i : nat) :
  load temp 0 PUBKEY_SIZE = Ok candidate →
  FLAGS_SIZE + length used * PUBKEY_SIZE ≤ length lock_bytes →
  (∀ j, i ≤ j < length used →
        used !! j = Some x01 ∨ pubkey_at lock_bytes j ≠ candidate) →
  i ≤ length used → length used < i + n →
  check_pubkeys lock_bytes temp used i n = Stop Undefined.
Proof.
  intros Hc Hlock. revert i.
  induction n as [|n IH]; intros i Hkeys Hi Hn; [lia|].
  cbn [check_pubkeys].
  destruct (decide (i = length used)) as [->|Hne].
  { unfold index. rewrite lookup_ge_None_2 by lia. reflexivity. }
  assert (Hlt : i < length used) by lia.
  destruct (lookup_lt_is_Some_2 used i Hlt) as [u Hu].
  unfold index. rewrite Hu, bind_Ok.
  assert (Hnext : check_pubkeys lock_bytes temp used (S i) n = Stop Undefined).
  { apply IH; [|lia..]. intros j Hj. apply Hkeys. lia. }
  destruct (decide (u = x01)); [exact Hnext|].
  rewrite (load_le lock_bytes) by (unfold PUBKEY_SIZE, FLAGS_SIZE in *; nia).
  rewrite bind_Ok, Hc, bind_Ok.
  fold (pubkey_at lock_bytes i).
  destruct (Hkeys i ltac:(lia)) as [Hset|Hother]; [congruence|].
  rewrite decide_True by exact Hother. exact Hnext.
Qed.

(** When the policy lists more keys than it requires signatures and the
    first signature recovers to a 33-byte key that is none of the first
    [threshold] keys, the scan goes on to [used_signatures[threshold]], one
    past the array: the run leaves defined behaviour, whatever the keys
    after the first [threshold] are. *)
Theorem signer_past_threshold_is_undefined
    {blake2b_state signature pubkey : Type}
    (e : Env blake2b_state signature pubkey) (s : prepared)
    (candidate : list byte) :
  prepare e = Ok s →
  secp256k1_initialize e = 0%Z →
  threshold (pr_policy s) < pubkeys_cnt (pr_policy s) →
  recover_pubkey e (lock_bytes (pr_buffers s)) (pr_policy s) (pr_message s) 0
  = Ok candidate →
  length candidate = PUBKEY_SIZE →
  (∀ j, j < threshold (pr_policy s) →
        pubkey_at (lock_bytes (pr_buffers s)) j ≠ candidate) →
  main e = Undefined.
Proof.
  intros Hprep Hinit Hmore Hrec Hlen Hkeys.
  rewrite (main_prepared e s Hprep).
  pose proof (prepare_flags e s Hprep) as Hflags.
  pose proof (get_flags_inv _ _ Hflags) as (_ & HM & _ & _ & _ & Hlock).
  unfold verify_threshold_signatures.
  rewrite decide_False by (intros H; apply H; exact Hinit).
  remember (threshold (pr_policy s)) as M eqn:HeqM.
  destruct M as [|m]; [lia|]. cbn [verify_signatures].
  rewrite Hrec, bind_Ok.
  rewrite store_le by (rewrite Hlen; unfold PUBKEY_SIZE, TEMP_SIZE; lia).
  rewrite bind_Ok.
  rewrite (check_pubkeys_overrun _ _ _ candidate); [reflexivity|..].
  - rewrite load_le by (rewrite length_app; lia).
    rewrite drop_0, take_app_length' by (symmetry; exact Hlen). reflexivity.
  - rewrite length_replicate.
    unfold multisig_script_len, PUBKEY_SIZE, FLAGS_SIZE in *. lia.
  - rewrite length_replicate. intros j Hj. right. apply Hkeys. lia.
  - lia.
  - rewrite length_replicate. lia.
Qed.

Lemma prepare_two_of_three :
  prepare Sample.two_of_three
  = Ok (Sample.prepared_for Sample.lock_2_of_3 Sample.flags_2_of_3).
Proof. vm_compute. reflexivity. Qed.

Lemma signer_past_threshold_is_undefined_sample :
  main Sample.two_of_three = Undefined.
Proof.
  apply (signer_past_threshold_is_undefined Sample.two_of_three
           (Sample.prepared_for Sample.lock_2_of_3 Sample.flags_2_of_3)
           Sample.key_c prepare_two_of_three).
  - reflexivity.
  - simpl. lia.
  - vm_compute. reflexivity.
  - reflexivity.
  - intros [|[|j]] Hj; [vm_compute; discriminate ..|].
    simpl in Hj. lia.
Defined.

(** ** The bytes that the signature loop parses *)


Section Parsed.
Context {blake2b_state signature pubkey : Type}.
Variable e : Env blake2b_state signature pubkey.



Variable parse' : list byte → byte → option signature.


End Parsed.

Section Copy.
Context {blake2b_state signature pubkey : Type}.
Variable e : Env blake2b_state signature pubkey.

End Copy.


(** ** A status that is not decided by the inputs *)

(** C9 at the one-of-two policy signed by the holder of the second key.  The
    inputs are fixed, and the scan for the one signature reads
    [used_signatures[1]] of an array of [threshold = 1] entry: what decides
    the run is a byte that is none of the inputs, and [main] has no status
    that the inputs determine.  Run on an array that is followed by one more
    byte, the same loop over the same inputs matches the second key and
    goes on to accept when that byte is 0, and returns [ERROR_VERIFICATION]
    when it is 1. *)
Lemma status_depends_on_byte_past_array :
  let s := Sample.prepared_for Sample.lock_1_of_2 Sample.flags_1_of_2 in
  let used_signatures := replicate (threshold (pr_policy s)) x00 in
  let loop used :=
    verify_signatures Sample.one_of_two (lock_bytes (pr_buffers s))
      (pr_policy s) (pr_message s) (temp (pr_buffers s)) used 0
      (threshold (pr_policy s)) in
  prepare Sample.one_of_two = Ok s ∧
  length used_signatures = 1 ∧
  pubkeys_cnt (pr_policy s) = 2 ∧
  loop used_signatures = Stop Undefined ∧
  main Sample.one_of_two = Undefined ∧
  loop (used_signatures ++ [x00])
  = Ok (used_signatures ++ [x01],
        Sample.key_b ++ drop PUBKEY_SIZE (temp (pr_buffers s))) ∧
  loop (used_signatures ++ [x01]) = Stop (Exit ERROR_VERIFICATION).
Proof. repeat split; vm_compute; reflexivity. Qed.
